(** * Snake Arena Live: the game simulation engine

    A shallow embedding of the game hook [useGameLogic] (pure helpers
    [moveSnake], [growSnake], [calculateSpeed], the state updaters behind
    [startGame], [pauseGame], [setDirection], [tick]) and of the spectator
    simulation [simulatePlayerTick] of the mock API.

    Conventions.
    - Grid coordinates and scores are JavaScript numbers holding integers;
      they are modelled as [Z].  [Math.floor (a / b)] on integers is [Z.div],
      the remainder operator [%] is [Z.rem] (the sign follows the dividend).
    - [Math.random ()] is an oracle: a stream [rnd : nat -> Q] of rationals,
      read at an index that every call advances by one.  The contract of
      [Math.random] is [0 <= r < 1]; it is an explicit hypothesis wherever a
      result depends on it.
    - A [do ... while] loop takes fuel; running out of fuel is [OutOfFuel],
      a thrown [TypeError] (reading a field of [undefined]) is [TypeError].
    - [localStorage] is a finite map from keys to the integers whose decimal
      rendering is stored.
    - Arithmetic on doubles is exact on the integers met here (below 2^53).
      The literal [0.3] is the double it denotes.  The product in
      [Math.floor (Math.random () * n)] is taken exactly, without its
      rounding to a double: the floor lies in [0, n) either way, and the
      statements rely on that range and on the cells that are drawn, not on
      which number yields which cell. *)

From Stdlib Require Import ZArith QArith Qround Lia.
From stdpp Require Import base option list sorting strings pretty gmap.

Open Scope Z_scope.

(** ** Types of [types/game] *)

Inductive Direction := UP | DOWN | LEFT | RIGHT.
Inductive GameMode := walls | pass_through.
Inductive GameStatus := idle | playing | paused | game_over.

Record Position := mkPos { px : Z; py : Z }.

Global Instance Direction_eq_dec : EqDecision Direction.
Proof. solve_decision. Defined.
Global Instance GameMode_eq_dec : EqDecision GameMode.
Proof. solve_decision. Defined.
Global Instance GameStatus_eq_dec : EqDecision GameStatus.
Proof. solve_decision. Defined.
Global Instance Position_eq_dec : EqDecision Position.
Proof. solve_decision. Defined.

Record GameState := mkGameState {
  snake : list Position;
  food : Position;
  direction : Direction;
  nextDirection : Direction;
  score : Z;
  highScore : Z;
  status : GameStatus;
  mode : GameMode;
  speed : Z
}.

(** ** Outcomes of a call *)

(** [Returns a]: the call returns [a].  [TypeError]: it throws (a field of
    [undefined] is read).  [IllTyped]: it returns a value outside its declared
    TypeScript type (an [undefined] where a [Direction] or a coordinate is
    declared).  [OutOfFuel]: the loop is still running when the fuel ends. *)
Inductive outcome (A : Type) :=
| Returns (a : A)
| TypeError
| IllTyped
| OutOfFuel.
Arguments Returns {A} a.
Arguments TypeError {A}.
Arguments IllTyped {A}.
Arguments OutOfFuel {A}.

Global Instance outcome_ret : MRet outcome := fun A a => Returns a.
Global Instance outcome_bind : MBind outcome := fun A B k m =>
  match m with
  | Returns a => k a
  | TypeError => TypeError
  | IllTyped => IllTyped
  | OutOfFuel => OutOfFuel
  end.

(** ** JavaScript array helpers *)

(** [arr.slice (s, e)]: a negative index counts from the end, and both ends
    are clamped to the array. *)
Definition js_index (len i : Z) : Z :=
  if i <? 0 then Z.max (len + i) 0 else Z.min i len.

Definition js_slice {A} (s e : Z) (l : list A) : list A :=
  let len := Z.of_nat (length l) in
  let k := js_index len s in
  let fin := js_index len e in
  take (Z.to_nat (fin - k)) (drop (Z.to_nat k) l).

(** The array left by [arr.pop ()]. *)
Definition js_pop {A} (l : list A) : list A := take (length l - 1)%nat l.

(** [p.x === q.x && p.y === q.y] *)
Definition samePos (p q : Position) : bool :=
  (px p =? px q) && (py p =? py q).

(** [arr.some (p => p.x === q.x && p.y === q.y)] *)
Definition some_at (l : list Position) (q : Position) : bool :=
  existsb (fun p => samePos p q) l.

(** ** Constants of the hook *)

Definition GRID_SIZE : Z := 20.
Definition INITIAL_SPEED : Z := 150.
Definition SPEED_INCREMENT : Z := 5.
Definition MIN_SPEED : Z := 50.

Definition getOppositeDirection (d : Direction) : Direction :=
  match d with
  | UP => DOWN
  | DOWN => UP
  | LEFT => RIGHT
  | RIGHT => LEFT
  end.

(** ** The random source *)

(** [Math.floor (Math.random () * n)] at draw index [i]. *)
Definition randInt (rnd : nat -> Q) (i : nat) (n : Z) : Z :=
  Qfloor (rnd i * inject_Z n).

Definition unit_source (rnd : nat -> Q) : Prop :=
  forall i, (0 <= rnd i)%Q /\ (rnd i < 1)%Q.

(** [generateRandomPosition]: draw [x], then [y]; repeat while the cell is
    one of [excludePositions].  There is no bound on the number of rounds in
    the source; the fuel only bounds how far the model follows the loop. *)
Fixpoint generateRandomPosition (fuel : nat) (rnd : nat -> Q) (i : nat)
    (excludePositions : list Position) : option (Position * nat) :=
  match fuel with
  | O => None
  | S fuel' =>
      let position := mkPos (randInt rnd i GRID_SIZE)
                            (randInt rnd (S i) GRID_SIZE) in
      if some_at excludePositions position
      then generateRandomPosition fuel' rnd (S (S i)) excludePositions
      else Some (position, S (S i))
  end.

(** ** [moveSnake] *)

(** The [switch] on the direction: the proposed head before any wrap. *)
Definition stepHead (head : Position) (d : Direction) : Position :=
  match d with
  | UP => mkPos (px head) (py head - 1)
  | DOWN => mkPos (px head) (py head + 1)
  | LEFT => mkPos (px head - 1) (py head)
  | RIGHT => mkPos (px head + 1) (py head)
  end.

(** pass-through: both coordinates are reduced. *)
Definition wrapPos (p : Position) : Position :=
  mkPos (Z.rem (px p + GRID_SIZE) GRID_SIZE) (Z.rem (py p + GRID_SIZE) GRID_SIZE).

(** walls: the out-of-bounds test. *)
Definition outOfBounds (p : Position) : bool :=
  (px p <? 0) || (px p >=? GRID_SIZE) || (py p <? 0) || (py p >=? GRID_SIZE).

(** Lines 58 to 82 of the hook: the proposed head after the mode's wall
    rule.  [None] is the early return of the walls branch. *)
Definition proposedHead (head : Position) (d : Direction) (m : GameMode)
    : option Position :=
  let newHead := stepHead head d in
  match m with
  | pass_through => Some (wrapPos newHead)
  | walls => if outOfBounds newHead then None else Some newHead
  end.

(** [moveSnake]: the pair [(newSnake, collision)]; on a collision [newSnake]
    is the input array itself.  On the empty array [snake[0]] is [undefined]
    and reading [head.x] throws. *)
Definition moveSnake (snake : list Position) (d : Direction) (m : GameMode)
    : outcome (list Position * bool) :=
  match snake with
  | [] => TypeError
  | head :: _ =>
      match proposedHead head d m with
      | None => Returns (snake, true)
      | Some newHead =>
          let bodyToCheck := js_slice 2 (-1) snake in
          let selfCollision := some_at bodyToCheck newHead in
          if selfCollision then Returns (snake, true)
          else Returns (newHead :: js_slice 0 (-1) snake, false)
      end
  end.

(** Which [return] of [moveSnake] is taken.  The source returns only the
    pair above; here the return inside the walls branch ([HitWall]) and the
    one after the self-collision test ([HitSelf]) are told apart, so that a
    wall hit and a self hit can be named.  [moveSnake_trace] below relates
    the two definitions. *)
Inductive MoveTrace :=
| MoveOk (newSnake : list Position)
| HitWall
| HitSelf.

Definition moveSnakeTrace (snake : list Position) (d : Direction) (m : GameMode)
    : outcome MoveTrace :=
  match snake with
  | [] => TypeError
  | head :: _ =>
      match proposedHead head d m with
      | None => Returns HitWall
      | Some newHead =>
          if some_at (js_slice 2 (-1) snake) newHead then Returns HitSelf
          else Returns (MoveOk (newHead :: js_slice 0 (-1) snake))
      end
  end.

Definition checkFoodCollision (head food : Position) : bool :=
  samePos head food.

(** [[...snake, { ...tail }]].  On the empty array [tail] is [undefined] and
    the appended object has no coordinates. *)
Definition growSnake (snake : list Position) : outcome (list Position) :=
  match last snake with
  | Some tail => Returns (snake ++ [tail])
  | None => IllTyped
  end.

Definition calculateSpeed (score : Z) : Z :=
  let speedReduction := (score / 50) * SPEED_INCREMENT in
  Z.max MIN_SPEED (INITIAL_SPEED - speedReduction).

(** ** The high-score store *)

Definition modeName (m : GameMode) : string :=
  match m with
  | walls => "walls"
  | pass_through => "pass-through"
  end.

(** The key [snake_highscore_${mode}]. *)
Definition highscoreKey (m : GameMode) : string :=
  "snake_highscore_" +:+ modeName m.

(** ** The hook [useGameLogic] *)

(** [createInitialState]: [parseInt (getItem (key) || '0')] reads the stored
    integer, 0 when the key is absent. *)
Definition createInitialState (fuel : nat) (rnd : nat -> Q) (i : nat)
    (store : gmap string Z) (m : GameMode) : outcome (GameState * nat) :=
  let initialSnake :=
    [ mkPos (GRID_SIZE / 2) (GRID_SIZE / 2);
      mkPos (GRID_SIZE / 2 - 1) (GRID_SIZE / 2);
      mkPos (GRID_SIZE / 2 - 2) (GRID_SIZE / 2) ] in
  match generateRandomPosition fuel rnd i initialSnake with
  | None => OutOfFuel
  | Some (food0, i') =>
      Returns ({| snake := initialSnake;
                  food := food0;
                  direction := RIGHT;
                  nextDirection := RIGHT;
                  score := 0;
                  highScore := default 0 (store !! highscoreKey m);
                  status := idle;
                  mode := m;
                  speed := INITIAL_SPEED |}, i')
  end.

(** The updater of [startGame]: [{ ...prev, status: 'playing' }]. *)
Definition startGame (prev : GameState) : GameState :=
  {| snake := snake prev; food := food prev; direction := direction prev;
     nextDirection := nextDirection prev; score := score prev;
     highScore := highScore prev;
     status := playing;
     mode := mode prev; speed := speed prev |}.

(** The updater of [pauseGame]. *)
Definition pauseGame (prev : GameState) : GameState :=
  {| snake := snake prev; food := food prev; direction := direction prev;
     nextDirection := nextDirection prev; score := score prev;
     highScore := highScore prev;
     status := if decide (status prev = playing) then paused else playing;
     mode := mode prev; speed := speed prev |}.

(** The updater of [setDirection]. *)
Definition setDirection (newDirection : Direction) (prev : GameState) : GameState :=
  if decide (status prev ≠ playing) then prev
  else if decide (newDirection = getOppositeDirection (direction prev)) then prev
  else
    {| snake := snake prev; food := food prev; direction := direction prev;
       nextDirection := newDirection;
       score := score prev; highScore := highScore prev;
       status := status prev; mode := mode prev; speed := speed prev |}.

(** The updater of [tick].  It returns the next state, the calls
    [localStorage.setItem (key, value)] it made, in order, and the next index
    of the random source. *)
Definition tick (fuel : nat) (rnd : nat -> Q) (i : nat) (prev : GameState)
    : outcome (GameState * list (string * Z) * nat) :=
  if decide (status prev ≠ playing) then Returns (prev, [], i)
  else
    let direction' := nextDirection prev in
    '(newSnake, collision) ← moveSnake (snake prev) direction' (mode prev);
    if collision : bool then
      let writes :=
        if score prev >? highScore prev
        then [(highscoreKey (mode prev), score prev)]
        else [] in
      Returns ({| snake := snake prev; food := food prev;
                  direction := direction prev;
                  nextDirection := nextDirection prev;
                  score := score prev;
                  highScore := Z.max (score prev) (highScore prev);
                  status := game_over;
                  mode := mode prev; speed := speed prev |}, writes, i)
    else
      match newSnake with
      | [] => TypeError
      | head :: _ =>
          let ateFood := checkFoodCollision head (food prev) in
          if ateFood then
            grownSnake ← growSnake newSnake;
            let newScore := score prev + 10 in
            let newHighScore := Z.max newScore (highScore prev) in
            let writes :=
              if newScore >? highScore prev
              then [(highscoreKey (mode prev), newHighScore)]
              else [] in
            match generateRandomPosition fuel rnd i grownSnake with
            | None => OutOfFuel
            | Some (food', i') =>
                Returns ({| snake := grownSnake;
                            food := food';
                            direction := direction';
                            nextDirection := nextDirection prev;
                            score := newScore;
                            highScore := newHighScore;
                            status := status prev;
                            mode := mode prev;
                            speed := calculateSpeed newScore |}, writes, i')
            end
          else
            Returns ({| snake := newSnake; food := food prev;
                        direction := direction';
                        nextDirection := nextDirection prev;
                        score := score prev; highScore := highScore prev;
                        status := status prev; mode := mode prev;
                        speed := speed prev |}, [], i)
      end.

(** [localStorage] after a sequence of [setItem] calls. *)
Definition setItems (writes : list (string * Z)) (store : gmap string Z)
    : gmap string Z :=
  foldl (fun st kv => <[kv.1 := kv.2]> st) store writes.

(** The keys the [keydown] handler reacts to, and the hook operation it
    calls for a key given the status it sees ([None]: no call).  [typing]
    is the test that the event target is an input or a text area. *)
Inductive Key :=
| ArrowUp      (* 'ArrowUp', 'w', 'W' *)
| ArrowDown    (* 'ArrowDown', 's', 'S' *)
| ArrowLeft    (* 'ArrowLeft', 'a', 'A' *)
| ArrowRight   (* 'ArrowRight', 'd', 'D' *)
| Space
| Escape
| OtherKey.

Inductive Op :=
| OpStart
| OpPause
| OpReset
| OpSetDirection (d : Direction).

Definition handleKeyDown (typing : bool) (key : Key) (st : GameStatus)
    : option Op :=
  if typing then None
  else
    match key with
    | ArrowUp => Some (OpSetDirection UP)
    | ArrowDown => Some (OpSetDirection DOWN)
    | ArrowLeft => Some (OpSetDirection LEFT)
    | ArrowRight => Some (OpSetDirection RIGHT)
    | Space =>
        match st with
        | idle => Some OpStart
        | playing | paused => Some OpPause
        | game_over => Some OpReset
        end
    | Escape => if decide (st = playing) then Some OpPause else None
    | OtherKey => None
    end.

(** The states a session of the hook can be in: the state built by
    [createInitialState] (at mount and at every [resetGame] or [setMode]),
    and the states the four updaters lead to, for any random source and any
    content of [localStorage]. *)
Inductive reachable : GameState -> Prop :=
| reach_init fuel rnd i store m s i' :
    createInitialState fuel rnd i store m = Returns (s, i') -> reachable s
| reach_start s : reachable s -> reachable (startGame s)
| reach_pause s : reachable s -> reachable (pauseGame s)
| reach_setDirection d s : reachable s -> reachable (setDirection d s)
| reach_tick fuel rnd i s s' writes i' :
    reachable s -> tick fuel rnd i s = Returns (s', writes, i') -> reachable s'.

(** [resetGame (mode?)]: the state [createInitialState (mode || gameState.mode)]
    replaces the current one.  [setMode (mode)] is [resetGame (mode)]. *)
Definition resetGame (fuel : nat) (rnd : nat -> Q) (i : nat)
    (store : gmap string Z) (modeArg : option GameMode) (gameState : GameState)
    : outcome (GameState * nat) :=
  createInitialState fuel rnd i store (default (mode gameState) modeArg).

Definition setMode (fuel : nat) (rnd : nat -> Q) (i : nat)
    (store : gmap string Z) (m : GameMode) (gameState : GameState)
    : outcome (GameState * nat) :=
  resetGame fuel rnd i store (Some m) gameState.

(** A [keydown] event.  The listener is the one registered by the effect of
    the last render: it tests the status of the state of that render
    ([rendered]) and holds the [resetGame] of that render, which reads
    [rendered]'s mode; the updaters of [startGame], [pauseGame] and
    [setDirection] that it queues run on the state at hand ([prev]). *)
Definition keydown (fuel : nat) (rnd : nat -> Q) (i : nat)
    (store : gmap string Z) (typing : bool) (key : Key)
    (rendered prev : GameState) : outcome (GameState * nat) :=
  match handleKeyDown typing key (status rendered) with
  | None => Returns (prev, i)
  | Some OpStart => Returns (startGame prev, i)
  | Some OpPause => Returns (pauseGame prev, i)
  | Some OpReset => resetGame fuel rnd i store None rendered
  | Some (OpSetDirection d) => Returns (setDirection d prev, i)
  end.

(** A session together with [localStorage]: the hook is mounted on some
    store, the updaters run, every [setItem] of a tick is applied to the
    store, and a reset reads the store again. *)
Inductive session : GameState -> gmap string Z -> Prop :=
| session_mount fuel rnd i store m s i' :
    createInitialState fuel rnd i store m = Returns (s, i') -> session s store
| session_start s store : session s store -> session (startGame s) store
| session_pause s store : session s store -> session (pauseGame s) store
| session_setDirection d s store :
    session s store -> session (setDirection d s) store
| session_tick fuel rnd i s store s' writes i' :
    session s store -> tick fuel rnd i s = Returns (s', writes, i') ->
    session s' (setItems writes store)
| session_reset fuel rnd i s store modeArg s' i' :
    session s store -> resetGame fuel rnd i store modeArg s = Returns (s', i') ->
    session s' store.

(** ** The spectator simulation of the mock API *)

Record LivePlayer := mkLivePlayer {
  lp_id : string;
  lp_username : string;
  lp_avatar : option string;
  lp_score : Z;
  lp_mode : GameMode;
  lp_snake : nat;            (* a reference to an array of the heap *)
  lp_food : Position;
  lp_direction : Direction;
  lp_status : GameStatus;
  lp_viewers : Z
}.

(** [arr[i]] for an integer [i]: [undefined] outside the array. *)
Definition js_nth {A} (l : list A) (i : Z) : option A :=
  if i <? 0 then None else l !! Z.to_nat i.

(** [generateRandomFood]: the same loop as [generateRandomPosition], over a
    grid of side [gridSize]. *)
Fixpoint generateRandomFood (fuel : nat) (rnd : nat -> Q) (i : nat)
    (gridSize : Z) (snake : list Position) : option (Position * nat) :=
  match fuel with
  | O => None
  | S fuel' =>
      let food := mkPos (randInt rnd i gridSize) (randInt rnd (S i) gridSize) in
      if some_at snake food
      then generateRandomFood fuel' rnd (S (S i)) gridSize snake
      else Some (food, S (S i))
  end.

Definition directions : list Direction := [UP; DOWN; LEFT; RIGHT].

(** The filter predicate of [possibleDirections]. *)
Definition notReversal (direction d : Direction) : bool :=
  match direction, d with
  | UP, DOWN => false
  | DOWN, UP => false
  | LEFT, RIGHT => false
  | RIGHT, LEFT => false
  | _, _ => true
  end.

(** The new head of the spectator snake. *)
Definition simHead (head : Position) (d : Direction) (gridSize : Z) : Position :=
  match d with
  | UP => mkPos (px head) (Z.rem (py head - 1 + gridSize) gridSize)
  | DOWN => mkPos (px head) (Z.rem (py head + 1) gridSize)
  | LEFT => mkPos (Z.rem (px head - 1 + gridSize) gridSize) (py head)
  | RIGHT => mkPos (Z.rem (px head + 1) gridSize) (py head)
  end.

(** The number that the literal [0.3] denotes: the double nearest to 3/10,
    which is 5404319552844595 / 2^54, just below 3/10. *)
Definition double_0_3 : Q := 5404319552844595 # 18014398509481984.

(** The block "random direction change (30% chance)" of
    [simulatePlayerTick], reading the random source from index [i]: the new
    direction and the next index.  [Math.random () < 0.3] compares two
    doubles, that is, the draw with [double_0_3]. *)
Definition randomTurn (rnd : nat -> Q) (i : nat) (direction : Direction)
    : outcome (Direction * nat) :=
  if Qlt_le_dec (rnd i) double_0_3 then
    let possibleDirections :=
      filter (fun d => notReversal direction d = true) directions in
    match js_nth possibleDirections
            (randInt rnd (S i) (Z.of_nat (length possibleDirections))) with
    | None => IllTyped
    | Some d => Returns (d, S (S i))
    end
  else Returns (direction, S i).

(** [simulatePlayerTick].  Arrays live in a heap [σ]; [player.snake] is a
    reference.  [[newHead, ...snake]] allocates a fresh array, and
    [newSnake.pop ()] updates that array in place. *)
Definition simulatePlayerTick (fuel : nat) (rnd : nat -> Q) (i : nat)
    (σ : gmap nat (list Position)) (player : LivePlayer) (gridSize : Z)
    : outcome (LivePlayer * gmap nat (list Position) * nat) :=
  match σ !! lp_snake player with
  | None | Some [] => TypeError
  | Some (head :: tl) =>
      let snake := head :: tl in
      let direction := lp_direction player in
      let food := lp_food player in
      let score := lp_score player in
      let newHead := simHead head direction gridSize in
      let newSnake := fresh (dom σ) in
      let σ1 := <[newSnake := newHead :: snake]> σ in
      '(newFood, newScore, σ2, i1) ←
         (if samePos newHead food then
            match generateRandomFood fuel rnd i gridSize (newHead :: snake) with
            | None => OutOfFuel
            | Some (f, i') => Returns (f, score + 10, σ1, i')
            end
          else Returns (food, score, alter js_pop newSnake σ1, i));
      '(newDirection, i2) ← randomTurn rnd i1 direction;
      Returns ({| lp_id := lp_id player;
                  lp_username := lp_username player;
                  lp_avatar := lp_avatar player;
                  lp_score := newScore;
                  lp_mode := lp_mode player;
                  lp_snake := newSnake;
                  lp_food := newFood;
                  lp_direction := newDirection;
                  lp_status := lp_status player;
                  lp_viewers := lp_viewers player |}, σ2, i2)
  end.

(** The spectator view: the interval callback replaces the snapshot by
    [simulatePlayerTick (prev)], with the default grid size; [spectate n] is
    the snapshot after [n] callbacks. *)
Fixpoint spectate (n : nat) (fuel : nat) (rnd : nat -> Q) (i : nat)
    (σ : gmap nat (list Position)) (player : LivePlayer)
    : outcome (LivePlayer * gmap nat (list Position) * nat) :=
  match n with
  | O => Returns (player, σ, i)
  | S n' =>
      '(player1, σ1, i1) ← simulatePlayerTick fuel rnd i σ player 20;
      spectate n' fuel rnd i1 σ1 player1
  end.

(** ** The mock API: users, leaderboard and live players *)

(** [generateRandomSnake (gridSize)], reading the random source from index
    [i]. *)
Definition generateRandomSnake (rnd : nat -> Q) (i : nat) (gridSize : Z)
    : list Position * nat :=
  let startX := randInt rnd i (gridSize - 10) + 5 in
  let startY := randInt rnd (S i) (gridSize - 10) + 5 in
  ([mkPos startX startY; mkPos (startX - 1) startY; mkPos (startX - 2) startY],
   S (S i)).

Record User := mkUser {
  u_id : string;
  u_username : string;
  u_email : string;
  u_avatar : option string;
  u_createdAt : string
}.

(** [User & { password: string }], as the user and the password. *)
Record StoredUser := mkStoredUser {
  su_user : User;
  su_password : string
}.

Record LeaderboardEntry := mkEntry {
  le_id : string;
  le_rank : Z;
  le_username : string;
  le_score : Z;
  le_mode : GameMode;
  le_date : string;
  le_avatar : option string
}.

Record LoginCredentials := mkLogin {
  lc_email : string;
  lc_password : string
}.

Record SignupCredentials := mkSignup {
  sc_username : string;
  sc_email : string;
  sc_password : string
}.

Record ApiResponse (T : Type) := mkResponse {
  data : option T;
  error : option string;
  success : bool
}.
Arguments mkResponse {T} _ _ _.
Arguments data {T} _.
Arguments error {T} _.
Arguments success {T} _.

Global Instance User_eq_dec : EqDecision User.
Proof. solve_decision. Defined.
Global Instance LeaderboardEntry_eq_dec : EqDecision LeaderboardEntry.
Proof. solve_decision. Defined.

(** The state of the module: its three variables, and the item
    [snake_user] of [localStorage], held as the user whose JSON text it is
    ([JSON.parse] of [JSON.stringify] of a user is that user). *)
Record MockState := mkMock {
  currentUser : option User;
  mockUsers : gmap string StoredUser;
  mockLeaderboard : list LeaderboardEntry;
  snake_user : option User
}.

(** [String (n)] for a natural number. *)
Definition String_of_nat (n : nat) : string := pretty n.

(** [arr.find (pred)]: the first element that satisfies [pred]. *)
Definition js_find {A} (P : A -> Prop) `{forall x, Decision (P x)}
    (l : list A) : option A :=
  snd <$> list_find P l.

(** [arr.sort ((a, b) => b.score - a.score)].  The sort of the language is
    stable, and a stable sort has one result; it is computed here by
    insertion, each entry going in front of the first entry whose score is
    not above its own. *)
Fixpoint insertByScore (e : LeaderboardEntry) (l : list LeaderboardEntry)
    : list LeaderboardEntry :=
  match l with
  | [] => [e]
  | e' :: l' =>
      if le_score e' >? le_score e then e' :: insertByScore e l'
      else e :: e' :: l'
  end.

Definition sortByScore (l : list LeaderboardEntry) : list LeaderboardEntry :=
  foldr insertByScore [] l.

(** [entry.rank = index + 1] *)
Definition withRank (index : nat) (entry : LeaderboardEntry) : LeaderboardEntry :=
  {| le_id := le_id entry; le_rank := Z.of_nat index + 1;
     le_username := le_username entry; le_score := le_score entry;
     le_mode := le_mode entry; le_date := le_date entry;
     le_avatar := le_avatar entry |}.

Module authApi.

Definition login (credentials : LoginCredentials) (st : MockState)
    : MockState * ApiResponse User :=
  match mockUsers st !! lc_email credentials with
  | Some storedUser =>
      if decide (su_password storedUser = lc_password credentials) then
        let user := su_user storedUser in
        ({| currentUser := Some user; mockUsers := mockUsers st;
            mockLeaderboard := mockLeaderboard st;
            snake_user := Some user |},
         mkResponse (Some user) None true)
      else (st, mkResponse None (Some "Invalid email or password") false)
  | None => (st, mkResponse None (Some "Invalid email or password") false)
  end.

(** [today] is the date part of [new Date ().toISOString ()]. *)
Definition signup (today : string) (credentials : SignupCredentials)
    (st : MockState) : MockState * ApiResponse User :=
  match mockUsers st !! sc_email credentials with
  | Some _ => (st, mkResponse None (Some "Email already registered") false)
  | None =>
      let user :=
        {| u_id := String_of_nat (size (mockUsers st) + 1);
           u_username := sc_username credentials;
           u_email := sc_email credentials;
           u_avatar := None;
           u_createdAt := today |} in
      let newUser := mkStoredUser user (sc_password credentials) in
      ({| currentUser := Some user;
          mockUsers := <[sc_email credentials := newUser]> (mockUsers st);
          mockLeaderboard := mockLeaderboard st;
          snake_user := Some user |},
       mkResponse (Some user) None true)
  end.

Definition logout (st : MockState) : MockState * ApiResponse unit :=
  ({| currentUser := None; mockUsers := mockUsers st;
      mockLeaderboard := mockLeaderboard st; snake_user := None |},
   mkResponse None None true).

Definition getCurrentUser (st : MockState) : MockState * ApiResponse User :=
  match snake_user st with
  | Some user =>
      ({| currentUser := Some user; mockUsers := mockUsers st;
          mockLeaderboard := mockLeaderboard st;
          snake_user := snake_user st |},
       mkResponse (Some user) None true)
  | None => (st, mkResponse None None true)
  end.

End authApi.

Module leaderboardApi.

Definition getLeaderboard (mode : option GameMode) (st : MockState)
    : ApiResponse (list LeaderboardEntry) :=
  let entries :=
    match mode with
    | Some m => filter (fun e => le_mode e = m) (mockLeaderboard st)
    | None => mockLeaderboard st
    end in
  mkResponse (Some entries) None true.

Definition submitScore (today : string) (score : Z) (mode : GameMode)
    (st : MockState) : MockState * ApiResponse LeaderboardEntry :=
  match currentUser st with
  | None => (st, mkResponse None (Some "Must be logged in to submit score") false)
  | Some user =>
      let newEntry :=
        {| le_id := String_of_nat (length (mockLeaderboard st) + 1);
           le_rank := 0;
           le_username := u_username user;
           le_score := score;
           le_mode := mode;
           le_date := today;
           le_avatar := None |} in
      let pushed := mockLeaderboard st ++ [newEntry] in
      let ranked := imap withRank (sortByScore pushed) in
      let updatedEntry := js_find (fun e => le_id e = le_id newEntry) ranked in
      ({| currentUser := currentUser st; mockUsers := mockUsers st;
          mockLeaderboard := ranked; snake_user := snake_user st |},
       mkResponse updatedEntry None true)
  end.

End leaderboardApi.

Module livePlayersApi.

Definition getLivePlayers (mockLivePlayers : list LivePlayer)
    : ApiResponse (list LivePlayer) :=
  mkResponse (Some mockLivePlayers) None true.

Definition getPlayerStream (mockLivePlayers : list LivePlayer) (playerId : string)
    : ApiResponse LivePlayer :=
  let player := js_find (fun p => lp_id p = playerId) mockLivePlayers in
  mkResponse player
             (match player with
              | Some _ => None
              | None => Some "Player not found"%string
              end)
             (bool_decide (is_Some player)).

End livePlayersApi.

(** The two users and the ten entries the module starts with. *)
Definition initialUsers : gmap string StoredUser :=
  <["user1@example.com" :=
      mkStoredUser (mkUser "1" "PixelMaster" "user1@example.com" None "2024-01-15")
                   "password123"]>
  (<["user2@example.com" :=
      mkStoredUser (mkUser "2" "SnakeKing" "user2@example.com" None "2024-02-20")
                   "password123"]> ∅).

Definition initialLeaderboard : list LeaderboardEntry :=
  [ mkEntry "1" 1 "NeonViper" 2450 walls "2024-12-07" None;
    mkEntry "2" 2 "PixelMaster" 2100 walls "2024-12-06" None;
    mkEntry "3" 3 "CyberSnake" 1890 pass_through "2024-12-05" None;
    mkEntry "4" 4 "RetroGamer" 1750 walls "2024-12-04" None;
    mkEntry "5" 5 "ArcadeKing" 1620 pass_through "2024-12-03" None;
    mkEntry "6" 6 "SnakeCharmer" 1500 walls "2024-12-02" None;
    mkEntry "7" 7 "BitRunner" 1380 pass_through "2024-12-01" None;
    mkEntry "8" 8 "GridMaster" 1200 walls "2024-11-30" None;
    mkEntry "9" 9 "NightCrawler" 1100 pass_through "2024-11-29" None;
    mkEntry "10" 10 "VectorKing" 980 walls "2024-11-28" None ].

(** The module as loaded, on a [localStorage] whose item [snake_user] is
    [stored]. *)
Definition initialMock (stored : option User) : MockState :=
  {| currentUser := None; mockUsers := initialUsers;
     mockLeaderboard := initialLeaderboard; snake_user := stored |}.

(** ** Vocabulary of the statements *)

(** A cell of the grid. *)
Definition inGrid (p : Position) : Prop :=
  0 <= px p < GRID_SIZE /\ 0 <= py p < GRID_SIZE.

(** The cell drawn in round [k] of a loop that starts reading at index [i]. *)
Definition drawAt (rnd : nat -> Q) (i : nat) (n : Z) (k : nat) : Position :=
  mkPos (randInt rnd (i + 2 * k) n) (randInt rnd (S (i + 2 * k)) n).



(** All the cells of the grid, column by column. *)
Definition allCells : list Position :=
  x ← seqZ 0 GRID_SIZE; y ← seqZ 0 GRID_SIZE; [mkPos x y].

(** The change of [x] and of [y] in one step in direction [d]. *)
Definition dx (d : Direction) : Z :=
  match d with LEFT => -1 | RIGHT => 1 | UP | DOWN => 0 end.

Definition dy (d : Direction) : Z :=
  match d with UP => -1 | DOWN => 1 | LEFT | RIGHT => 0 end.

(** One step on the torus of side [n]. *)
Definition torusStep (p : Position) (d : Direction) (n : Z) : Position :=
  mkPos ((px p + dx d) mod n) ((py p + dy d) mod n).

(** What every state of a session satisfies: the snake has a head and a
    second segment, both in the grid; the head is one step (modulo the grid
    size) from the second segment in the committed direction; and the
    pending direction is not the reversal of the committed one. *)
Definition coherent (s : GameState) : Prop :=
  exists head second rest,
    snake s = head :: second :: rest /\
    inGrid head /\ inGrid second /\
    (px head - px second - dx (direction s)) mod GRID_SIZE = 0 /\
    (py head - py second - dy (direction s)) mod GRID_SIZE = 0 /\
    nextDirection s ≠ getOppositeDirection (direction s).

(** The state with another pending direction. *)
Definition withPending (p : Direction) (s : GameState) : GameState :=
  {| snake := snake s; food := food s; direction := direction s;
     nextDirection := p;
     score := score s; highScore := highScore s;
     status := status s; mode := mode s; speed := speed s |}.

(** A request is accepted in a state. *)
Definition accepted (d : Direction) (s : GameState) : Prop :=
  status s = playing /\ d ≠ getOppositeDirection (direction s).

(** The three states a tick of a playing session can return. *)
Definition gameOverState (s : GameState) : GameState :=
  {| snake := snake s; food := food s; direction := direction s;
     nextDirection := nextDirection s; score := score s;
     highScore := Z.max (score s) (highScore s);
     status := game_over; mode := mode s; speed := speed s |}.

Definition advancedState (s : GameState) (newSnake : list Position) : GameState :=
  {| snake := newSnake; food := food s; direction := nextDirection s;
     nextDirection := nextDirection s; score := score s;
     highScore := highScore s;
     status := status s; mode := mode s; speed := speed s |}.

Definition grownState (s : GameState) (grownSnake : list Position)
    (newFood : Position) : GameState :=
  {| snake := grownSnake; food := newFood; direction := nextDirection s;
     nextDirection := nextDirection s; score := score s + 10;
     highScore := Z.max (score s + 10) (highScore s);
     status := status s; mode := mode s;
     speed := calculateSpeed (score s + 10) |}.

(** A call of the mock API that can change the state of the module, and
    the state it leaves. *)
Inductive ApiCall :=
| Login (credentials : LoginCredentials)
| Signup (today : string) (credentials : SignupCredentials)
| Logout
| GetCurrentUser
| SubmitScore (today : string) (score : Z) (mode : GameMode).

Definition runCall (c : ApiCall) (st : MockState) : MockState :=
  match c with
  | Login credentials => (authApi.login credentials st).1
  | Signup today credentials => (authApi.signup today credentials st).1
  | Logout => (authApi.logout st).1
  | GetCurrentUser => (authApi.getCurrentUser st).1
  | SubmitScore today score mode => (leaderboardApi.submitScore today score mode st).1
  end.

Definition runCalls (cs : list ApiCall) (st : MockState) : MockState :=
  foldl (fun st c => runCall c st) st cs.

(** The order of the leaderboard: at least the score of what follows. *)
Definition aboveOrEqual (e1 e2 : LeaderboardEntry) : Prop :=
  le_score e2 <= le_score e1.

(** An entry is not ranked below an entry of higher score. *)
Definition scoresDescending (l : list LeaderboardEntry) : Prop :=
  forall i j ei ej,
    (i <= j)%nat -> l !! i = Some ei -> l !! j = Some ej ->
    le_score ej <= le_score ei.

(** The rank of an entry is its place in the list, counted from 1. *)
Definition ranksInOrder (l : list LeaderboardEntry) : Prop :=
  forall k e, l !! k = Some e -> le_rank e = Z.of_nat k + 1.

(** The entries of a list, their ranks set aside. *)
Definition unranked (l : list LeaderboardEntry) : list LeaderboardEntry :=
  withRank 0 <$> l.

(** The identifiers of the board are the numerals from 1 to its length. *)
Definition boardIds (l : list LeaderboardEntry) : Prop :=
  le_id <$> l ≡ₚ String_of_nat <$> seq 1 (length l).

(** What the module keeps true from call to call. *)
Definition mockInv (st : MockState) : Prop :=
  scoresDescending (mockLeaderboard st) /\
  ranksInOrder (mockLeaderboard st) /\
  boardIds (mockLeaderboard st) /\
  (forall u, currentUser st = Some u -> snake_user st = Some u) /\
  (forall e su, mockUsers st !! e = Some su -> u_email (su_user su) = e).

(** * Properties *)

(** A concrete cell is not in a concrete list of cells. *)
Ltac not_in_cells := apply (bool_decide_unpack _); vm_compute; exact I.

(** ** Arrays and positions *)

Lemma samePos_true p q : samePos p q = true <-> p = q.
Proof.
  unfold samePos. rewrite andb_true_iff, !Z.eqb_eq.
  destruct p, q; simpl. split; [intros [-> ->] | intros [= -> ->]]; done.
Qed.

Lemma samePos_false p q : samePos p q = false <-> p ≠ q.
Proof.
  rewrite <- samePos_true. destruct (samePos p q); split; congruence.
Qed.

Lemma some_at_true l q : some_at l q = true <-> q ∈ l.
Proof.
  unfold some_at. rewrite existsb_exists, list_elem_of_In. split.
  - intros (p & Hin & Heq). apply samePos_true in Heq. by subst.
  - intros Hin. exists q. split; [done | by apply samePos_true].
Qed.

Lemma some_at_false l q : some_at l q = false <-> q ∉ l.
Proof.
  rewrite <- some_at_true. destruct (some_at l q); split; congruence.
Qed.

Lemma js_slice_0_m1 {A} (l : list A) : js_slice 0 (-1) l = js_pop l.
Proof.
  unfold js_slice, js_pop, js_index. simpl.
  rewrite Z.min_l by lia. simpl. rewrite drop_0. f_equal. lia.
Qed.

Lemma js_slice_2_m1 {A} (l : list A) :
  js_slice 2 (-1) l = take (length l - 3) (drop 2 l).
Proof.
  unfold js_slice, js_index. simpl.
  destruct l as [|a [|b l]]; [done | done |].
  rewrite Z.min_l by (simpl; lia).
  change (Z.to_nat 2) with 2%nat. f_equal. simpl length. lia.
Qed.

(** The segments the self-collision test looks at are those at the indices
    [2 .. length - 2]: the head, its successor and the tail are left out. *)
Lemma elem_of_js_slice_2_m1 {A} (l : list A) (x : A) :
  x ∈ js_slice 2 (-1) l <->
  exists k : nat, (2 <= k < length l - 1)%nat /\ l !! k = Some x.
Proof.
  rewrite js_slice_2_m1, list_elem_of_lookup. split.
  - intros [j Hj]. apply lookup_take_Some in Hj as [Hj Hlt].
    rewrite lookup_drop in Hj. exists (2 + j)%nat. split; [lia | done].
  - intros (k & Hk & Hx). exists (k - 2)%nat.
    apply lookup_take_Some. split; [| lia].
    rewrite lookup_drop. by replace (2 + (k - 2))%nat with k by lia.
Qed.

Lemma js_pop_cons {A} (a b : A) (l : list A) :
  js_pop (a :: b :: l) = a :: js_pop (b :: l).
Proof. unfold js_pop. simpl. by rewrite Nat.sub_0_r. Qed.

Lemma length_js_pop {A} (l : list A) : length (js_pop l) = (length l - 1)%nat.
Proof. unfold js_pop. rewrite length_take. lia. Qed.

(** ** [moveSnake] and its trace *)

Lemma moveSnake_trace snake d m :
  moveSnake snake d m =
  match moveSnakeTrace snake d m with
  | Returns (MoveOk newSnake) => Returns (newSnake, false)
  | Returns HitWall | Returns HitSelf => Returns (snake, true)
  | TypeError => TypeError
  | IllTyped => IllTyped
  | OutOfFuel => OutOfFuel
  end.
Proof.
  unfold moveSnake, moveSnakeTrace. destruct snake as [|head rest]; [done |].
  destruct (proposedHead head d m) as [newHead|]; [| done].
  by destruct (some_at _ newHead).
Qed.

Lemma proposedHead_pass_through head d :
  proposedHead head d pass_through = Some (wrapPos (stepHead head d)).
Proof. done. Qed.

Lemma proposedHead_walls head d :
  proposedHead head d walls =
  if outOfBounds (stepHead head d) then None else Some (stepHead head d).
Proof. done. Qed.

Lemma outOfBounds_false p : outOfBounds p = false <-> inGrid p.
Proof.
  unfold outOfBounds, inGrid. rewrite !orb_false_iff.
  rewrite !Z.ltb_ge, !Z.geb_leb, !Z.leb_gt. lia.
Qed.


Lemma wrapPos_inGrid head d :
  inGrid head -> inGrid (wrapPos (stepHead head d)).
Proof.
  unfold inGrid, wrapPos, GRID_SIZE. intros [Hx Hy].
  destruct d; simpl;
    rewrite !Z.rem_mod_nonneg by lia; split; apply Z.mod_pos_bound; lia.
Qed.

Lemma wrapPos_mod head d :
  inGrid head ->
  wrapPos (stepHead head d) =
  mkPos (px (stepHead head d) mod GRID_SIZE) (py (stepHead head d) mod GRID_SIZE).
Proof.
  unfold inGrid, wrapPos, GRID_SIZE. intros [Hx Hy].
  destruct d; simpl; rewrite !Z.rem_mod_nonneg by lia;
    f_equal; rewrite <- (Z.add_mod_idemp_r _ 20 20) by lia;
    rewrite Z.mod_same by lia; f_equal; lia.
Qed.

(** ** The random source and the rejection loops *)

Lemma randInt_range rnd i n :
  unit_source rnd -> 0 < n -> 0 <= randInt rnd i n < n.
Proof.
  intros Hu Hn. destruct (Hu i) as [H0 H1]. unfold randInt. split.
  - change 0 with (Qfloor 0). apply Qfloor_resp_le.
    apply Qmult_le_0_compat; [done |].
    change 0%Q with (inject_Z 0). rewrite <- Zle_Qle. lia.
  - rewrite Zlt_Qlt.
    eapply Qle_lt_trans; [apply Qfloor_le |].
    rewrite <- (Qmult_1_l (inject_Z n)) at 2.
    apply Qmult_lt_r; [| done].
    change 0%Q with (inject_Z 0). rewrite <- Zlt_Qlt. lia.
Qed.

Lemma drawAt_0 rnd i n :
  drawAt rnd i n 0 = mkPos (randInt rnd i n) (randInt rnd (S i) n).
Proof. unfold drawAt. by rewrite Nat.add_0_r. Qed.

Lemma drawAt_S rnd i n k :
  drawAt rnd i n (S k) = drawAt rnd (S (S i)) n k.
Proof. unfold drawAt. by replace (i + 2 * S k)%nat with (S (S i) + 2 * k)%nat by lia. Qed.

Lemma generateRandomPosition_food fuel rnd i excl :
  generateRandomPosition fuel rnd i excl =
  generateRandomFood fuel rnd i GRID_SIZE excl.
Proof.
  revert i. induction fuel as [|fuel IH]; intros i; simpl; [done |].
  by rewrite IH.
Qed.

Section RejectionLoop.
Variable rnd : nat -> Q.
Variable n : Z.
Variable snake : list Position.

(** The loop returns exactly the first drawn cell that is not excluded. *)
Lemma generateRandomFood_first_free fuel i k :
  (forall j, (j < k)%nat -> drawAt rnd i n j ∈ snake) ->
  drawAt rnd i n k ∉ snake ->
  (k < fuel)%nat ->
  generateRandomFood fuel rnd i n snake =
  Some (drawAt rnd i n k, (i + 2 * S k)%nat).
Proof.
  revert i k. induction fuel as [|fuel IH]; intros i k Hbefore Hfree Hk; [lia |].
  simpl. rewrite <- drawAt_0. destruct k as [|k].
  - apply some_at_false in Hfree. rewrite Hfree. do 2 f_equal. lia.
  - assert (H0 : drawAt rnd i n 0 ∈ snake) by (apply Hbefore; lia).
    apply some_at_true in H0. rewrite H0.
    rewrite (IH (S (S i)) k).
    + rewrite <- drawAt_S. do 2 f_equal. lia.
    + intros j Hj. rewrite <- drawAt_S. apply Hbefore. lia.
    + by rewrite <- drawAt_S.
    + lia.
Qed.

(** As long as every drawn cell is excluded, the loop keeps drawing. *)
Lemma generateRandomFood_none fuel i :
  (forall j, (j < fuel)%nat -> drawAt rnd i n j ∈ snake) ->
  generateRandomFood fuel rnd i n snake = None.
Proof.
  revert i. induction fuel as [|fuel IH]; intros i Hall; [done |].
  simpl. rewrite <- drawAt_0.
  assert (H0 : drawAt rnd i n 0 ∈ snake) by (apply Hall; lia).
  apply some_at_true in H0. rewrite H0. apply IH.
  intros j Hj. rewrite <- drawAt_S. apply Hall. lia.
Qed.

Lemma generateRandomFood_inv fuel i p i' :
  generateRandomFood fuel rnd i n snake = Some (p, i') ->
  exists k, (k < fuel)%nat /\ p = drawAt rnd i n k /\ i' = (i + 2 * S k)%nat /\
            (p ∉ snake) /\ (forall j, (j < k)%nat -> drawAt rnd i n j ∈ snake).
Proof.
  revert i. induction fuel as [|fuel IH]; intros i; simpl; [done |].
  rewrite <- drawAt_0.
  destruct (some_at snake (drawAt rnd i n 0)) eqn:Hs.
  - intros H. apply IH in H as (k & Hk & -> & -> & Hfree & Hbefore).
    exists (S k). rewrite drawAt_S. repeat split; [lia | lia | done |].
    intros [|j] Hj; [by apply some_at_true | rewrite drawAt_S; apply Hbefore; lia].
  - intros [= <- <-]. exists 0%nat.
    repeat split; [lia | lia | by apply some_at_false | intros; lia].
Qed.

(** A free cell drawn in some round within the fuel makes the loop return. *)
Lemma generateRandomFood_terminates fuel i k :
  drawAt rnd i n k ∉ snake -> (k < fuel)%nat ->
  is_Some (generateRandomFood fuel rnd i n snake).
Proof.
  revert i k. induction fuel as [|fuel IH]; intros i k Hfree Hk; [lia |].
  simpl. rewrite <- drawAt_0.
  destruct (some_at snake (drawAt rnd i n 0)) eqn:Hs; [| done].
  destruct k as [|k]; [apply some_at_false in Hfree; congruence |].
  apply (IH _ k); [by rewrite <- drawAt_S | lia].
Qed.

(** More fuel does not change a result. *)
Lemma generateRandomFood_fuel_mono fuel fuel' i r :
  generateRandomFood fuel rnd i n snake = Some r -> (fuel <= fuel')%nat ->
  generateRandomFood fuel' rnd i n snake = Some r.
Proof.
  destruct r as [p i']. intros H Hle.
  apply generateRandomFood_inv in H as (k & Hk & -> & -> & Hfree & Hbefore).
  apply generateRandomFood_first_free; [done | done | lia].
Qed.

(** On a snake that lies on every cell of the grid the loop never returns. *)
Lemma generateRandomFood_full fuel i :
  unit_source rnd -> 0 < n ->
  (forall p, 0 <= px p < n /\ 0 <= py p < n -> p ∈ snake) ->
  generateRandomFood fuel rnd i n snake = None.
Proof.
  intros Hu Hn Hfull. apply generateRandomFood_none.
  intros j _. apply Hfull. split; by apply randInt_range.
Qed.
End RejectionLoop.

(** ** The difficulty curve *)

Lemma calculateSpeed_formula score :
  calculateSpeed score = Z.max 50 (150 - score / 50 * 5).
Proof. done. Qed.

Lemma calculateSpeed_antitone s1 s2 :
  s1 <= s2 -> calculateSpeed s2 <= calculateSpeed s1.
Proof.
  intros Hle. rewrite !calculateSpeed_formula.
  assert (s1 / 50 <= s2 / 50) by (apply Z.div_le_mono; lia). lia.
Qed.

Lemma calculateSpeed_lower score : MIN_SPEED <= calculateSpeed score.
Proof. unfold calculateSpeed. lia. Qed.

(** C7.  For every non-negative integer score, [calculateSpeed score] is
    [max (50, 150 - floor (score / 50) * 5)]; it is non-increasing in the
    score, never below 50 and hence positive; its values at 0, 50 and
    100000 are 150, 145 and 50. *)
Theorem calculateSpeed_curve :
  (forall score, 0 <= score ->
     calculateSpeed score = Z.max 50 (150 - score / 50 * 5) /\
     MIN_SPEED <= calculateSpeed score /\ 50 <= calculateSpeed score /\
     0 < calculateSpeed score) /\
  (forall s1 s2, 0 <= s1 -> s1 <= s2 -> calculateSpeed s2 <= calculateSpeed s1) /\
  calculateSpeed 0 = 150 /\ calculateSpeed 50 = 145 /\
  calculateSpeed 100000 = 50.
Proof.
  split; [| split; [| done]].
  - intros score _. pose proof (calculateSpeed_lower score) as Hlow.
    unfold MIN_SPEED in *. split; [apply calculateSpeed_formula | lia].
  - intros s1 s2 _. apply calculateSpeed_antitone.
Qed.

Lemma calculateSpeed_curve_witness :
  calculateSpeed 120 = 140 /\ calculateSpeed 5000 <= calculateSpeed 120.
Proof.
  destruct calculateSpeed_curve as (Hval & Hmono & _). split.
  - destruct (Hval 120) as [-> _]; [lia | reflexivity].
  - apply Hmono; lia.
Defined.

(** ** Walls and wrap-around *)







(** ** Inversion of [moveSnake] and [growSnake] *)

Lemma moveSnake_ok_inv snake d m newSnake :
  moveSnake snake d m = Returns (newSnake, false) ->
  exists head rest newHead,
    snake = head :: rest /\
    proposedHead head d m = Some newHead /\
    (newHead ∉ js_slice 2 (-1) snake) /\
    newSnake = newHead :: js_pop snake.
Proof.
  unfold moveSnake. destruct snake as [|head rest]; [done |].
  destruct (proposedHead head d m) as [newHead|] eqn:Hp; [| done].
  destruct (some_at _ newHead) eqn:Hs; [done |].
  intros [= <-]. exists head, rest, newHead.
  rewrite js_slice_0_m1. by apply some_at_false in Hs.
Qed.

Lemma moveSnake_collision_inv snake d m newSnake :
  moveSnake snake d m = Returns (newSnake, true) ->
  newSnake = snake /\ snake ≠ [].
Proof.
  unfold moveSnake. destruct snake as [|head rest]; [done |].
  destruct (proposedHead head d m) as [newHead|]; [| by intros [= <-]].
  destruct (some_at _ newHead); [by intros [= <-] | done].
Qed.

Lemma growSnake_cons head rest :
  exists tail, last (head :: rest) = Some tail /\
               growSnake (head :: rest) = Returns ((head :: rest) ++ [tail]).
Proof.
  unfold growSnake.
  destruct (last (head :: rest)) as [tail|] eqn:Hl; [by exists tail |].
  by apply last_None in Hl.
Qed.

(** ** The three ways a tick of a playing session ends *)

Lemma tick_not_playing fuel rnd i prev :
  status prev ≠ playing -> tick fuel rnd i prev = Returns (prev, [], i).
Proof. intros H. unfold tick. by rewrite decide_True. Qed.

Lemma tick_collision fuel rnd i prev newSnake :
  status prev = playing ->
  moveSnake (snake prev) (nextDirection prev) (mode prev) = Returns (newSnake, true) ->
  tick fuel rnd i prev =
  Returns ({| snake := snake prev; food := food prev;
              direction := direction prev;
              nextDirection := nextDirection prev;
              score := score prev;
              highScore := Z.max (score prev) (highScore prev);
              status := game_over;
              mode := mode prev; speed := speed prev |},
           (if score prev >? highScore prev
            then [(highscoreKey (mode prev), score prev)] else []),
           i).
Proof.
  intros Hs Hm. unfold tick. rewrite decide_False by (rewrite Hs; auto).
  by rewrite Hm.
Qed.

Lemma tick_advance fuel rnd i prev head body :
  status prev = playing ->
  moveSnake (snake prev) (nextDirection prev) (mode prev)
    = Returns (head :: body, false) ->
  head ≠ food prev ->
  tick fuel rnd i prev =
  Returns ({| snake := head :: body; food := food prev;
              direction := nextDirection prev;
              nextDirection := nextDirection prev;
              score := score prev; highScore := highScore prev;
              status := status prev; mode := mode prev;
              speed := speed prev |}, [], i).
Proof.
  intros Hs Hm Hf. unfold tick. rewrite decide_False by (rewrite Hs; auto).
  rewrite Hm. simpl. unfold checkFoodCollision.
  apply samePos_false in Hf. by rewrite Hf.
Qed.

Lemma tick_eat fuel rnd i prev body tail :
  status prev = playing ->
  moveSnake (snake prev) (nextDirection prev) (mode prev)
    = Returns (food prev :: body, false) ->
  last (food prev :: body) = Some tail ->
  tick fuel rnd i prev =
  match generateRandomPosition fuel rnd i ((food prev :: body) ++ [tail]) with
  | None => OutOfFuel
  | Some (food', i') =>
      Returns ({| snake := (food prev :: body) ++ [tail];
                  food := food';
                  direction := nextDirection prev;
                  nextDirection := nextDirection prev;
                  score := score prev + 10;
                  highScore := Z.max (score prev + 10) (highScore prev);
                  status := status prev;
                  mode := mode prev;
                  speed := calculateSpeed (score prev + 10) |},
               (if score prev + 10 >? highScore prev
                then [(highscoreKey (mode prev),
                       Z.max (score prev + 10) (highScore prev))]
                else []),
               i')
  end.
Proof.
  intros Hs Hm Hl. unfold tick. rewrite decide_False by (rewrite Hs; auto).
  rewrite Hm. simpl. unfold checkFoodCollision.
  assert (Hsame : samePos (food prev) (food prev) = true) by by apply samePos_true.
  rewrite Hsame. unfold growSnake. rewrite Hl. simpl.
  by destruct (generateRandomPosition _ _ _ _) as [[food' i']|].
Qed.

(** A tick of a playing session that returns has made its move. *)
Lemma tick_playing_returns fuel rnd i prev r :
  status prev = playing ->
  tick fuel rnd i prev = Returns r ->
  exists newSnake collision,
    moveSnake (snake prev) (nextDirection prev) (mode prev)
      = Returns (newSnake, collision).
Proof.
  intros Hs. unfold tick. rewrite decide_False by (rewrite Hs; auto).
  destruct (moveSnake _ _ _) as [[newSnake collision]| | |]; [eauto | done..].
Qed.

(** A started session, as [createInitialState] and [startGame] leave it. *)
Lemma started_session_reachable food0 :
  food0 ∉ [mkPos 10 10; mkPos 9 10; mkPos 8 10] ->
  (exists rnd, drawAt rnd 0 GRID_SIZE 0 = food0) ->
  reachable {| snake := [mkPos 10 10; mkPos 9 10; mkPos 8 10]; food := food0;
               direction := RIGHT; nextDirection := RIGHT;
               score := 0; highScore := 0; status := playing;
               mode := walls; speed := 150 |}.
Proof.
  intros Hfree [rnd Hdraw].
  apply (reach_start {| snake := [mkPos 10 10; mkPos 9 10; mkPos 8 10]; food := food0;
               direction := RIGHT; nextDirection := RIGHT;
               score := 0; highScore := 0; status := idle;
               mode := walls; speed := 150 |}).
  apply (reach_init 1 rnd 0 ∅ walls _ 2%nat).
  unfold createInitialState. rewrite generateRandomPosition_food.
  rewrite (generateRandomFood_first_free rnd GRID_SIZE _ 1 0 0);
    [by rewrite Hdraw | intros; lia | by rewrite Hdraw | lia].
Qed.

(** ** A tick that collides *)

(** C4.  When the session is playing and the next move collides, [tick]
    returns a state whose status is game-over and whose snake, food, score,
    direction, pending direction, mode and speed are those of the previous
    state; the high score becomes the maximum of score and previous high
    score, and [localStorage.setItem] is called (once, with the score under
    the key of the mode) exactly when the score exceeds the previous high
    score.  No random number is read. *)
Theorem tick_collision_game_over (fuel : nat) (rnd : nat -> Q) (i : nat)
    (prev : GameState) (newSnake : list Position) :
  status prev = playing ->
  moveSnake (snake prev) (nextDirection prev) (mode prev) = Returns (newSnake, true) ->
  exists next writes,
    tick fuel rnd i prev = Returns (next, writes, i) /\
    status next = game_over /\
    snake next = snake prev /\ food next = food prev /\
    score next = score prev /\ direction next = direction prev /\
    nextDirection next = nextDirection prev /\
    mode next = mode prev /\ speed next = speed prev /\
    highScore next = Z.max (score prev) (highScore prev) /\
    (score prev > highScore prev ->
       writes = [(highscoreKey (mode prev), score prev)]) /\
    (score prev <= highScore prev -> writes = []) /\
    (writes ≠ [] <-> score prev > highScore prev).
Proof.
  intros Hs Hm. eexists _, _. split; [by eapply tick_collision |]. simpl.
  repeat (split; [done |]).
  destruct (Z.gtb_spec (score prev) (highScore prev)); repeat split; try done; lia.
Qed.

Lemma tick_collision_game_over_witness :
  let prev := {| snake := [mkPos 19 10; mkPos 18 10]; food := mkPos 3 3;
                 direction := RIGHT; nextDirection := RIGHT;
                 score := 40; highScore := 30; status := playing;
                 mode := walls; speed := 150 |} in
  exists next writes,
    tick 0 (fun _ => 0%Q) 0 prev = Returns (next, writes, 0%nat) /\
    status next = game_over /\
    snake next = [mkPos 19 10; mkPos 18 10] /\
    highScore next = 40 /\
    writes = [("snake_highscore_walls"%string, 40)].
Proof.
  intros prev.
  destruct (tick_collision_game_over 0 (fun _ => 0%Q) 0 prev (snake prev))
    as (next & writes & Ht & Hst & Hsn & _ & _ & _ & _ & _ & _ & Hhs & Hw & _);
    [reflexivity | reflexivity |].
  exists next, writes. repeat split; try assumption.
  apply Hw. reflexivity.
Defined.

(** ** A tick that moves *)

(** Against C5 as stated: a session that was just started with the food on
    the cell in front of the head (the draws 0.5625 and 0.5 give the cell
    (11,10)), and a random source that from then on always yields 0.5.  The
    session is playing and its next move does not collide and reaches the
    food; every cell drawn for the new food is (10,10), a cell of the grown
    snake, so [tick] never returns and no new food cell is generated. *)
Lemma tick_eating_never_returns :
  let rnd : nat -> Q := fun i => match i with O => 9 # 16 | _ => 1 # 2 end in
  let mounted := {| snake := [mkPos 10 10; mkPos 9 10; mkPos 8 10];
                    food := mkPos 11 10;
                    direction := RIGHT; nextDirection := RIGHT;
                    score := 0; highScore := 0; status := idle;
                    mode := walls; speed := 150 |} in
  unit_source rnd /\
  createInitialState 1 rnd 0 ∅ walls = Returns (mounted, 2%nat) /\
  reachable (startGame mounted) /\
  status (startGame mounted) = playing /\
  moveSnake (snake (startGame mounted)) (nextDirection (startGame mounted))
            (mode (startGame mounted))
    = Returns ([mkPos 11 10; mkPos 10 10; mkPos 9 10], false) /\
  (forall fuel, tick fuel rnd 2 (startGame mounted) = OutOfFuel) /\
  ~ (exists fuel next writes i',
       tick fuel rnd 2 (startGame mounted) = Returns (next, writes, i')).
Proof.
  intros rnd mounted.
  assert (Hinit : createInitialState 1 rnd 0 ∅ walls = Returns (mounted, 2%nat))
    by (vm_compute; reflexivity).
  assert (Hloop : forall fuel, tick fuel rnd 2 (startGame mounted) = OutOfFuel).
  { intros fuel.
    rewrite (tick_eat fuel rnd 2 (startGame mounted) [mkPos 10 10; mkPos 9 10]
               (mkPos 9 10)); [| reflexivity..].
    rewrite generateRandomPosition_food, generateRandomFood_none; [done |].
    intros j _. unfold drawAt.
    replace (2 + 2 * j)%nat with (S (S (2 * j))) by lia.
    apply (bool_decide_unpack _). vm_compute. exact I. }
  split; [| split; [| split; [| split; [| split; [| split]]]]].
  - intros [|j]; unfold Qle, Qlt; simpl; lia.
  - exact Hinit.
  - apply reach_start. by eapply reach_init.
  - reflexivity.
  - reflexivity.
  - exact Hloop.
  - intros (fuel & next & writes & i' & Hret). by rewrite Hloop in Hret.
Qed.

(** C5 (amended).  When the session is playing and the next move does not
    collide, the new head is the cell one step from the head in the pending
    direction (in walls mode a cell of the grid, in pass-through mode
    wrapped at the edge) and the pending direction becomes the current one.
    If the new head is not the food cell, [tick] returns with the snake
    advanced at constant length and score, food, speed and high score
    unchanged.  If it is the food cell, [tick] draws cells until one is
    outside the grown snake, with no bound on the number of rounds: it
    returns at the first such cell, with that cell as the new food, a snake
    one segment longer, the score raised by 10 and the speed recomputed from
    the new score; as long as every drawn cell is on the grown snake it has
    not returned. *)
Theorem tick_move_and_eat (fuel : nat) (rnd : nat -> Q) (i : nat)
    (prev : GameState) (newSnake : list Position) :
  status prev = playing ->
  moveSnake (snake prev) (nextDirection prev) (mode prev) = Returns (newSnake, false) ->
  exists head rest newHead,
    snake prev = head :: rest /\
    (mode prev = walls ->
       newHead = mkPos (px head + dx (nextDirection prev))
                       (py head + dy (nextDirection prev)) /\
       inGrid newHead) /\
    (mode prev = pass_through ->
       newHead = mkPos
                   (Z.rem (px head + dx (nextDirection prev) + GRID_SIZE) GRID_SIZE)
                   (Z.rem (py head + dy (nextDirection prev) + GRID_SIZE) GRID_SIZE) /\
       (inGrid head -> newHead = torusStep head (nextDirection prev) GRID_SIZE)) /\
    newSnake = newHead :: js_pop (snake prev) /\
    length newSnake = length (snake prev) /\
    (newHead ≠ food prev ->
       exists next,
         tick fuel rnd i prev = Returns (next, [], i) /\
         snake next = newSnake /\
         direction next = nextDirection prev /\
         nextDirection next = nextDirection prev /\
         score next = score prev /\ food next = food prev /\
         speed next = speed prev /\ highScore next = highScore prev /\
         status next = playing /\ mode next = mode prev) /\
    (newHead = food prev ->
       exists grownSnake,
         growSnake newSnake = Returns grownSnake /\
         grownSnake !! 0%nat = Some newHead /\
         length grownSnake = S (length (snake prev)) /\
         (forall next writes i',
            tick fuel rnd i prev = Returns (next, writes, i') ->
            snake next = grownSnake /\
            direction next = nextDirection prev /\
            nextDirection next = nextDirection prev /\
            score next = score prev + 10 /\
            speed next = calculateSpeed (score next) /\
            (food next ∉ snake next) /\
            highScore next = Z.max (score next) (highScore prev) /\
            status next = playing /\ mode next = mode prev /\
            exists k, (k < fuel)%nat /\
                      food next = drawAt rnd i GRID_SIZE k /\
                      i' = (i + 2 * S k)%nat /\
                      forall j, (j < k)%nat -> drawAt rnd i GRID_SIZE j ∈ grownSnake) /\
         (forall k, (k < fuel)%nat -> drawAt rnd i GRID_SIZE k ∉ grownSnake ->
            exists next writes i',
              tick fuel rnd i prev = Returns (next, writes, i')) /\
         ((forall k, (k < fuel)%nat -> drawAt rnd i GRID_SIZE k ∈ grownSnake) ->
            tick fuel rnd i prev = OutOfFuel)).
Proof.
  intros Hs Hm.
  destruct (moveSnake_ok_inv _ _ _ _ Hm) as (head & rest & newHead & Hsn & Hp & _ & ->).
  exists head, rest, newHead. split; [done |].
  assert (Hlen : length (newHead :: js_pop (snake prev)) = length (snake prev)).
  { simpl. rewrite length_js_pop, Hsn. simpl. lia. }
  split; [| split; [| split; [done | split; [done | split]]]].
  - intros Hmode. rewrite Hmode, proposedHead_walls in Hp.
    destruct (outOfBounds _) eqn:Hout; [done |]. injection Hp as <-.
    split; [| by apply outOfBounds_false].
    destruct (nextDirection prev); simpl; f_equal; lia.
  - intros Hmode. rewrite Hmode, proposedHead_pass_through in Hp. injection Hp as <-.
    split.
    + unfold wrapPos, GRID_SIZE.
      destruct (nextDirection prev); simpl; f_equal; f_equal; lia.
    + intros Hin. rewrite (wrapPos_mod _ _ Hin). unfold torusStep, GRID_SIZE.
      destruct (nextDirection prev); simpl; f_equal; f_equal; lia.
  - intros Hne. eexists. split; [by eapply tick_advance |]. by rewrite Hs.
  - intros ->.
    destruct (growSnake_cons (food prev) (js_pop (snake prev))) as (tail & Hl & Hg).
    exists ((food prev :: js_pop (snake prev)) ++ [tail]).
    split; [done |]. split; [done |].
    split; [rewrite length_app, Hlen; simpl; lia |].
    pose proof (tick_eat fuel rnd i prev _ tail Hs Hm Hl) as Ht.
    split; [| split].
    + intros next writes i' Hret. rewrite Hret in Ht.
      destruct (generateRandomPosition _ _ _ _) as [[food' i'']|] eqn:Hgen; [| done].
      injection Ht as -> -> ->. simpl.
      rewrite generateRandomPosition_food in Hgen.
      apply generateRandomFood_inv in Hgen as (k & Hk & Hfood & Hi' & Hfree & Hbefore).
      rewrite Hs. do 9 (split; [done |]). by exists k.
    + intros k Hk Hfree.
      destruct (generateRandomFood_terminates rnd GRID_SIZE _ fuel i k Hfree Hk)
        as [[food' i'] Hgen].
      rewrite <- generateRandomPosition_food in Hgen. rewrite Hgen in Ht.
      eauto.
    + intros Hall. rewrite Ht, generateRandomPosition_food.
      by rewrite generateRandomFood_none.
Qed.

Lemma tick_move_and_eat_witness :
  let prev := {| snake := [mkPos 10 10; mkPos 9 10; mkPos 8 10];
                 food := mkPos 11 10;
                 direction := RIGHT; nextDirection := RIGHT;
                 score := 0; highScore := 0; status := playing;
                 mode := walls; speed := 150 |} in
  exists next writes i',
    tick 1 (fun _ => 1 # 4) 0 prev = Returns (next, writes, i') /\
    length (snake next) = 4%nat /\
    score next = 10 /\
    food next = mkPos 5 5 /\
    food next ∉ snake next.
Proof.
  intros prev.
  destruct (tick_move_and_eat 1 (fun _ => 1 # 4) 0 prev
              [mkPos 11 10; mkPos 10 10; mkPos 9 10])
    as (head & rest & newHead & Hsn & Hwalls & _ & _ & _ & _ & Heat);
    [reflexivity | reflexivity |].
  injection Hsn as <- <-. destruct (Hwalls eq_refl) as [Hnh _]. simpl in Hnh.
  destruct (Heat Hnh) as (grown & Hg & _ & Hlen & Hprops & Hterm & _).
  injection Hg as <-.
  destruct (Hterm 0%nat) as (next & writes & i' & Hret).
  { lia. }
  { not_in_cells. }
  exists next, writes, i'. split; [exact Hret |].
  destruct (Hprops next writes i' Hret)
    as (Hsnake & _ & _ & Hscore & _ & Hfood & _ & _ & _ & k & Hk & Hdraw & _).
  rewrite Hsnake. split; [reflexivity |]. split; [exact Hscore |].
  split; [| rewrite <- Hsnake; exact Hfood].
  assert (k = 0%nat) as -> by lia. rewrite Hdraw. reflexivity.
Defined.

(** ** The self-collision test *)

Lemma moveSnakeTrace_self head rest d m newHead :
  proposedHead head d m = Some newHead ->
  moveSnakeTrace (head :: rest) d m = Returns HitSelf <->
  exists k : nat,
    (2 <= k < length (head :: rest) - 1)%nat /\ (head :: rest) !! k = Some newHead.
Proof.
  intros Hp. rewrite <- elem_of_js_slice_2_m1, <- some_at_true.
  unfold moveSnakeTrace. rewrite Hp.
  destruct (some_at _ newHead); split; congruence.
Qed.

Lemma moveSnakeTrace_ok head rest d m newHead :
  proposedHead head d m = Some newHead ->
  (forall k : nat, (2 <= k < length (head :: rest) - 1)%nat ->
                   (head :: rest) !! k ≠ Some newHead) ->
  moveSnakeTrace (head :: rest) d m
    = Returns (MoveOk (newHead :: js_pop (head :: rest))).
Proof.
  intros Hp Hno. unfold moveSnakeTrace. rewrite Hp.
  destruct (some_at _ newHead) eqn:Hs; [| by rewrite js_slice_0_m1].
  apply some_at_true, elem_of_js_slice_2_m1 in Hs as (k & Hk & Hx).
  by destruct (Hno k Hk).
Qed.

(** After a tick that eats, the tail cell holds two segments. *)
Example growth_duplicates_tail :
  let prev := {| snake := [mkPos 11 10; mkPos 11 11; mkPos 10 11; mkPos 9 11];
                 food := mkPos 10 10;
                 direction := UP; nextDirection := LEFT;
                 score := 0; highScore := 0; status := playing;
                 mode := walls; speed := 150 |} in
  exists next writes i',
    tick 1 (fun _ => 1 # 4) 0 prev = Returns (next, writes, i') /\
    snake next = [mkPos 10 10; mkPos 11 10; mkPos 11 11; mkPos 10 11; mkPos 10 11] /\
    direction next = LEFT /\ status next = playing.
Proof. intros prev. eexists _, _, _. split; [vm_compute; reflexivity | done]. Qed.

(** Against C2 as stated: the snake left by the tick above, asked to move
    down.  The proposed head is the cell the tail occupies, and the move is
    a self collision, because the segment before the tail lies on the same
    cell and is compared. *)
Lemma tail_cell_collides_after_growth :
  let snake := [mkPos 10 10; mkPos 11 10; mkPos 11 11; mkPos 10 11; mkPos 10 11] in
  last snake = Some (mkPos 10 11) /\
  proposedHead (mkPos 10 10) DOWN walls = Some (mkPos 10 11) /\
  proposedHead (mkPos 10 10) DOWN pass_through = Some (mkPos 10 11) /\
  moveSnakeTrace snake DOWN walls = Returns HitSelf /\
  moveSnake snake DOWN walls = Returns (snake, true) /\
  moveSnake snake DOWN pass_through = Returns (snake, true).
Proof. repeat split; reflexivity. Qed.

(** A tick whose move succeeds keeps the session playing, with the proposed
    head as the head of the snake, eaten food or not. *)
Lemma tick_move_keeps_playing fuel rnd i prev newHead body next writes i' :
  status prev = playing ->
  moveSnake (snake prev) (nextDirection prev) (mode prev)
    = Returns (newHead :: body, false) ->
  tick fuel rnd i prev = Returns (next, writes, i') ->
  status next = playing /\ snake next !! 0%nat = Some newHead.
Proof.
  intros Hs Hm Ht. destruct (decide (newHead = food prev)) as [-> | Hne].
  - destruct (growSnake_cons (food prev) body) as (tail & Hl & _).
    rewrite (tick_eat fuel rnd i prev body tail Hs Hm Hl) in Ht.
    destruct (generateRandomPosition _ _ _ _) as [[food' i'']|]; [| done].
    injection Ht as <- _ _. done.
  - rewrite (tick_advance fuel rnd i prev newHead body Hs Hm Hne) in Ht.
    injection Ht as <- _ _. done.
Qed.

(** C2 (amended).  Once the wall rule has produced the proposed head, the
    move is a self collision exactly when the proposed head equals a segment
    at one of the indices [2 .. length - 2], that is, any segment but the
    head, the segment behind the head and the tail segment; otherwise the
    move succeeds.  In particular a proposed head on the cell of the tail
    segment, or of the segment behind the head, succeeds provided no compared
    segment lies on that cell; the test does not look at the food, so in a
    playing session such a move is not a game over whether or not the snake
    grows on that tick. *)
Theorem moveSnake_self_collision_check (head : Position) (rest : list Position)
    (d : Direction) (m : GameMode) (newHead : Position) :
  let body := head :: rest in
  let compared (p : Position) :=
    exists k : nat, (2 <= k < length body - 1)%nat /\ body !! k = Some p in
  proposedHead head d m = Some newHead ->
  (moveSnakeTrace body d m = Returns HitSelf <-> compared newHead) /\
  (moveSnake body d m = Returns (body, true) <-> compared newHead) /\
  (~ compared newHead ->
     moveSnake body d m = Returns (newHead :: js_pop body, false)) /\
  (last body = Some newHead \/ body !! 1%nat = Some newHead ->
   ~ compared newHead ->
     moveSnake body d m = Returns (newHead :: js_pop body, false) /\
     forall fuel rnd i prev next writes i',
       status prev = playing -> snake prev = body ->
       nextDirection prev = d -> mode prev = m ->
       tick fuel rnd i prev = Returns (next, writes, i') ->
       status next = playing /\ snake next !! 0%nat = Some newHead).
Proof.
  intros snake0 compared Hp. subst snake0.
  assert (Hself : moveSnakeTrace (head :: rest) d m = Returns HitSelf <-> compared newHead)
    by by apply moveSnakeTrace_self.
  assert (Hok : ~ compared newHead ->
                moveSnake (head :: rest) d m
                  = Returns (newHead :: js_pop (head :: rest), false)).
  { intros Hno. rewrite moveSnake_trace, (moveSnakeTrace_ok _ _ _ _ newHead); [done | done |].
    intros k Hk Hx. apply Hno. by exists k. }
  split; [done |]. split; [| split; [done |]].
  - rewrite <- Hself, moveSnake_trace. unfold moveSnakeTrace. rewrite Hp.
    destruct (some_at _ newHead); split; done.
  - intros _ Hno. split; [by apply Hok |].
    intros fuel rnd i prev next writes i' Hs Hsn Hd Hm Ht.
    specialize (Hok Hno). rewrite <- Hsn, <- Hd, <- Hm in Hok.
    by eapply tick_move_keeps_playing.
Qed.

Lemma moveSnake_self_collision_check_witness :
  moveSnakeTrace [mkPos 10 10; mkPos 11 10; mkPos 11 11; mkPos 10 11; mkPos 9 11]
                 DOWN pass_through = Returns HitSelf /\
  moveSnake [mkPos 10 10; mkPos 11 10; mkPos 11 11; mkPos 10 11] DOWN walls
    = Returns ([mkPos 10 11; mkPos 10 10; mkPos 11 10; mkPos 11 11], false).
Proof.
  split.
  - apply (moveSnake_self_collision_check (mkPos 10 10)
             [mkPos 11 10; mkPos 11 11; mkPos 10 11; mkPos 9 11]
             DOWN pass_through (mkPos 10 11)); [reflexivity |].
    exists 3%nat. split; [simpl; lia | reflexivity].
  - apply (moveSnake_self_collision_check (mkPos 10 10)
             [mkPos 11 10; mkPos 11 11; mkPos 10 11]
             DOWN walls (mkPos 10 11)); [reflexivity | left; reflexivity |].
    intros (k & Hk & Hx). simpl in Hk.
    assert (k = 2%nat) as -> by lia. discriminate Hx.
Defined.

(** ** Moving onto the segment behind the head *)

(** Against C3 as stated: a closed loop of four segments, whose head moves
    right onto the second segment.  The move succeeds. *)
Lemma loop_into_second_segment_succeeds :
  let loop := [mkPos 10 10; mkPos 11 10; mkPos 11 11; mkPos 10 11] in
  loop !! 1%nat = Some (mkPos 11 10) /\
  proposedHead (mkPos 10 10) RIGHT walls = Some (mkPos 11 10) /\
  moveSnakeTrace loop RIGHT walls
    = Returns (MoveOk [mkPos 11 10; mkPos 10 10; mkPos 11 10; mkPos 11 11]) /\
  moveSnake loop RIGHT walls
    = Returns ([mkPos 11 10; mkPos 10 10; mkPos 11 10; mkPos 11 11], false) /\
  moveSnake loop RIGHT pass_through
    = Returns ([mkPos 11 10; mkPos 10 10; mkPos 11 10; mkPos 11 11], false).
Proof. repeat split; reflexivity. Qed.

(** C3 (amended).  For every snake of at least four segments, a move whose
    proposed head lands on a segment strictly between the second segment and
    the tail (index 2 up to length - 2) is a self collision: [collision] is
    true and the snake is returned as it was.  A move whose proposed head
    lands on the second segment is not detected: when no segment strictly
    between the second segment and the tail lies on that cell, the move
    succeeds and the new snake has its first and third segment on the same
    cell. *)
Theorem moveSnake_onto_own_body (head : Position) (rest : list Position)
    (d : Direction) (m : GameMode) (newHead : Position) :
  (4 <= length (head :: rest))%nat ->
  proposedHead head d m = Some newHead ->
  (forall k : nat, (2 <= k <= length (head :: rest) - 2)%nat ->
     (head :: rest) !! k = Some newHead ->
     moveSnakeTrace (head :: rest) d m = Returns HitSelf /\
     moveSnake (head :: rest) d m = Returns (head :: rest, true)) /\
  ((head :: rest) !! 1%nat = Some newHead ->
   (forall k : nat, (2 <= k <= length (head :: rest) - 2)%nat ->
      (head :: rest) !! k ≠ Some newHead) ->
   exists newSnake,
     moveSnakeTrace (head :: rest) d m = Returns (MoveOk newSnake) /\
     moveSnake (head :: rest) d m = Returns (newSnake, false) /\
     newSnake !! 0%nat = Some newHead /\ newSnake !! 2%nat = Some newHead /\
     length newSnake = length (head :: rest)).
Proof.
  intros Hlen Hp. split.
  - intros k Hk Hx.
    assert (Hself : moveSnakeTrace (head :: rest) d m = Returns HitSelf).
    { apply (moveSnakeTrace_self _ _ _ _ newHead Hp). exists k. split; [lia | done]. }
    split; [done |]. by rewrite moveSnake_trace, Hself.
  - intros H1 Hno. exists (newHead :: js_pop (head :: rest)).
    assert (Hok : moveSnakeTrace (head :: rest) d m
                  = Returns (MoveOk (newHead :: js_pop (head :: rest)))).
    { apply moveSnakeTrace_ok; [done |]. intros k Hk. apply Hno. lia. }
    split; [done |]. split; [by rewrite moveSnake_trace, Hok |].
    split; [done |]. split.
    + destruct rest as [|second [|third rest]]; simpl in Hlen; [lia | lia |].
      rewrite !js_pop_cons. simpl in *. done.
    + simpl. rewrite length_js_pop. simpl. lia.
Qed.

Lemma moveSnake_onto_own_body_witness :
  moveSnake [mkPos 10 10; mkPos 11 10; mkPos 11 11; mkPos 10 11; mkPos 9 11]
            DOWN pass_through
    = Returns ([mkPos 10 10; mkPos 11 10; mkPos 11 11; mkPos 10 11; mkPos 9 11], true).
Proof.
  apply (moveSnake_onto_own_body (mkPos 10 10)
           [mkPos 11 10; mkPos 11 11; mkPos 10 11; mkPos 9 11]
           DOWN pass_through (mkPos 10 11)) with (k := 3%nat).
  - simpl. lia.
  - reflexivity.
  - simpl. lia.
  - reflexivity.
Defined.

(** ** Start, pause and the game-over status *)


(** The updaters of [setDirection] and [tick] leave a session alone unless
    it is playing. *)
Lemma setDirection_not_playing d s : status s ≠ playing -> setDirection d s = s.
Proof. intros H. unfold setDirection. by rewrite decide_True. Qed.

(** A session that was started and has run nine ticks to the right: the
    head is on the last column. *)
Lemma session_at_wall_reachable :
  reachable {| snake := [mkPos 19 10; mkPos 18 10; mkPos 17 10];
               food := mkPos 3 3;
               direction := RIGHT; nextDirection := RIGHT;
               score := 0; highScore := 0; status := playing;
               mode := walls; speed := 150 |}.
Proof.
  assert (H : reachable {| snake := [mkPos 10 10; mkPos 9 10; mkPos 8 10];
                           food := mkPos 3 3;
                           direction := RIGHT; nextDirection := RIGHT;
                           score := 0; highScore := 0; status := playing;
                           mode := walls; speed := 150 |}).
  { apply started_session_reachable; [not_in_cells |].
    exists (fun _ => 5 # 32). reflexivity. }
  do 9 (match type of H with
        | reachable ?s =>
            let r := eval vm_compute in (tick 0 (fun _ => 0%Q) 0 s) in
            match r with
            | Returns (?s', ?w, ?i') =>
                apply (reach_tick 0 (fun _ => 0%Q) 0 s s' w i') in H;
                [| vm_compute; reflexivity]
            end
        end).
  exact H.
Qed.

(** C1.  The claim fails on the code at a session that has just ended.
    [atWall] is a session with the head on the last column, heading right;
    its next tick collides and leaves [over], which is game-over.  The key
    listener registered for [over] calls [resetGame] on the space key and
    nothing on Escape, and the updaters of [setDirection] and [tick] leave
    [over] as it is.  But the listener registered in the render of [atWall]
    (the status it tests is still playing) calls [pauseGame] on Escape or
    space, and the updater of [pauseGame] has no case for a session that is
    over: it sets [over] playing, giving [atWall] back, and after a request
    to turn the next tick moves the snake on.  [startGame] does the same,
    and [pauseGame] starts an idle session. *)
Theorem pauseGame_resumes_game_over :
  let rnd : nat -> Q := fun _ => 5 # 32 in
  let atWall := {| snake := [mkPos 19 10; mkPos 18 10; mkPos 17 10];
                   food := mkPos 3 3;
                   direction := RIGHT; nextDirection := RIGHT;
                   score := 0; highScore := 0; status := playing;
                   mode := walls; speed := 150 |} in
  let over := {| snake := [mkPos 19 10; mkPos 18 10; mkPos 17 10];
                 food := mkPos 3 3;
                 direction := RIGHT; nextDirection := RIGHT;
                 score := 0; highScore := 0; status := game_over;
                 mode := walls; speed := 150 |} in
  let mounted := {| snake := [mkPos 10 10; mkPos 9 10; mkPos 8 10];
                    food := mkPos 3 3;
                    direction := RIGHT; nextDirection := RIGHT;
                    score := 0; highScore := 0; status := idle;
                    mode := walls; speed := 150 |} in
  reachable atWall /\
  tick 0 rnd 0 atWall = Returns (over, [], 0%nat) /\
  reachable over /\
  (* the guards: the listener of [over], and the sibling updaters *)
  keydown 0 rnd 0 ∅ false Escape over over = Returns (over, 0%nat) /\
  handleKeyDown false Space (status over) = Some OpReset /\
  (forall d, setDirection d over = over) /\
  (forall fuel i, tick fuel rnd i over = Returns (over, [], i)) /\
  (* the listener of the render before the tick *)
  keydown 0 rnd 0 ∅ false Escape atWall over = Returns (pauseGame over, 0%nat) /\
  keydown 0 rnd 0 ∅ false Space atWall over = Returns (pauseGame over, 0%nat) /\
  status (pauseGame over) = playing /\
  pauseGame over = atWall /\
  tick 0 rnd 0 (setDirection UP (pauseGame over))
    = Returns ({| snake := [mkPos 19 9; mkPos 19 10; mkPos 18 10];
                  food := mkPos 3 3;
                  direction := UP; nextDirection := UP;
                  score := 0; highScore := 0; status := playing;
                  mode := walls; speed := 150 |}, [], 0%nat) /\
  status (startGame over) = playing /\
  createInitialState 1 rnd 0 ∅ walls = Returns (mounted, 2%nat) /\
  status (pauseGame mounted) = playing.
Proof.
  intros rnd atWall over mounted.
  pose proof session_at_wall_reachable as Hreach. fold atWall in Hreach.
  assert (Htick : tick 0 rnd 0 atWall = Returns (over, [], 0%nat))
    by (vm_compute; reflexivity).
  split; [exact Hreach |]. split; [exact Htick |].
  split; [exact (reach_tick _ _ _ _ _ _ _ Hreach Htick) |].
  split; [reflexivity |]. split; [reflexivity |].
  split; [intros d; by apply setDirection_not_playing |].
  split; [intros fuel i; by apply tick_not_playing |].
  split; [reflexivity |]. split; [reflexivity |].
  split; [reflexivity |]. split; [reflexivity |].
  split; [vm_compute; reflexivity |]. split; [reflexivity |].
  split; [vm_compute; reflexivity | reflexivity].
Qed.

(** ** Food placement: the rejection loop *)

Lemma elem_of_allCells p : inGrid p -> p ∈ allCells.
Proof.
  intros [Hx Hy]. unfold allCells.
  apply list_elem_of_bind. exists (px p). split; [| apply elem_of_seqZ; lia].
  apply list_elem_of_bind. exists (py p). split; [| apply elem_of_seqZ; lia].
  destruct p. simpl. apply list_elem_of_singleton. done.
Qed.

(** Against C8 as stated: on a snake that lies on every cell of the grid
    the loop never returns, whatever the fuel; and no number of rounds is
    enough for every snake and every random source. *)
Lemma generateRandomPosition_unbounded :
  ~ (exists fuel, generateRandomPosition fuel (fun _ => 1 # 2) 0 allCells ≠ None) /\
  ~ (exists fuel, generateRandomFood fuel (fun _ => 1 # 2) 0 20 allCells ≠ None) /\
  ~ (exists bound, forall rnd excl,
       unit_source rnd -> length excl = 1%nat ->
       generateRandomPosition bound rnd 0 excl ≠ None).
Proof.
  assert (Hu : unit_source (fun _ => 1 # 2)) by (intros i; split; done).
  split; [| split].
  - intros [fuel H]. apply H. rewrite generateRandomPosition_food.
    apply generateRandomFood_full; [done | done |]. apply elem_of_allCells.
  - intros [fuel H]. apply H.
    apply generateRandomFood_full; [done | done |]. apply elem_of_allCells.
  - intros [bound H]. apply (H (fun _ => 1 # 2) [mkPos 10 10] Hu eq_refl).
    rewrite generateRandomPosition_food. apply generateRandomFood_none.
    intros j _. apply list_elem_of_singleton. reflexivity.
Qed.

(** C8 (amended).  [generateRandomPosition] and [generateRandomFood] draw
    cells until one is outside the snake, with no bound on the number of
    rounds and no fallback scan.  If round [k] is the first to draw a cell
    outside the snake, the loop returns that cell after [2 * (k + 1)] reads
    of the random source, and it has not returned before; if the snake lies
    on every cell of the grid, the loop is still running after any number of
    rounds. *)
Theorem generateRandomPosition_rejection (rnd : nat -> Q) (i : nat)
    (gridSize : Z) (excl : list Position) :
  (forall k fuel,
     (forall j, (j < k)%nat -> drawAt rnd i gridSize j ∈ excl) ->
     drawAt rnd i gridSize k ∉ excl ->
     ((k < fuel)%nat ->
        generateRandomFood fuel rnd i gridSize excl
          = Some (drawAt rnd i gridSize k, (i + 2 * S k)%nat)) /\
     ((fuel <= k)%nat -> generateRandomFood fuel rnd i gridSize excl = None)) /\
  (unit_source rnd -> 0 < gridSize ->
   (forall p, 0 <= px p < gridSize /\ 0 <= py p < gridSize -> p ∈ excl) ->
   forall fuel, generateRandomFood fuel rnd i gridSize excl = None) /\
  (forall fuel,
     generateRandomPosition fuel rnd i excl
       = generateRandomFood fuel rnd i GRID_SIZE excl).
Proof.
  split; [| split].
  - intros k fuel Hbefore Hfree. split.
    + intros Hk. by apply generateRandomFood_first_free.
    + intros Hk. apply generateRandomFood_none. intros j Hj. apply Hbefore. lia.
  - intros Hu Hn Hfull fuel. by apply generateRandomFood_full.
  - intros fuel. apply generateRandomPosition_food.
Qed.

Lemma generateRandomPosition_rejection_witness :
  generateRandomFood 5 (fun i => if (i <? 4)%nat then 1 # 2 else 1 # 4) 0 20
                     [mkPos 10 10]
    = Some (mkPos 5 5, 6%nat) /\
  generateRandomFood 7 (fun _ => 1 # 2) 0 20 allCells = None.
Proof.
  split.
  - apply (generateRandomPosition_rejection
             (fun i => if (i <? 4)%nat then 1 # 2 else 1 # 4) 0 20 [mkPos 10 10])
      with (k := 2%nat) (fuel := 5%nat).
    + intros j Hj. apply list_elem_of_singleton.
      destruct j as [|[|j]]; [reflexivity | reflexivity | lia].
    + intros H. apply list_elem_of_singleton in H. discriminate H.
    + lia.
  - apply (generateRandomPosition_rejection (fun _ => 1 # 2) 0 20 allCells).
    + intros j. unfold Qle, Qlt. simpl. lia.
    + reflexivity.
    + intros p Hp. apply elem_of_allCells. exact Hp.
Defined.

(** ** The spectator simulation *)

Lemma simHead_torus head d n :
  0 < n -> 0 <= px head < n -> 0 <= py head < n ->
  simHead head d n = torusStep head d n.
Proof.
  intros Hn Hx Hy. unfold simHead, torusStep.
  destruct d; simpl; rewrite Z.rem_mod_nonneg by lia; rewrite ?Z.add_0_r; f_equal;
    try (symmetry; apply Z.mod_small; lia).
  - replace (py head - 1 + n) with (py head + -1 + 1 * n) by lia.
    apply Z_mod_plus_full.
  - replace (px head - 1 + n) with (px head + -1 + 1 * n) by lia.
    apply Z_mod_plus_full.
Qed.

Lemma randomTurn_legal rnd i direction :
  unit_source rnd ->
  exists d' i',
    randomTurn rnd i direction = Returns (d', i') /\
    d' ≠ getOppositeDirection direction /\
    (i' = S i \/ i' = S (S i)).
Proof.
  intros Hu. unfold randomTurn.
  destruct (Qlt_le_dec (rnd i) double_0_3) as [_|_].
  - pose proof (randInt_range rnd (S i) 3 Hu ltac:(lia)) as Hr.
    assert (Hlen : forall dir,
              length (filter (fun d => notReversal dir d = true) directions) = 3%nat)
      by (by intros []).
    rewrite Hlen. change (Z.of_nat 3) with 3.
    assert (Hcases : randInt rnd (S i) 3 = 0 \/ randInt rnd (S i) 3 = 1 \/
                     randInt rnd (S i) 3 = 2) by lia.
    destruct Hcases as [-> | [-> | ->]]; destruct direction; simpl;
      eexists _, _; (split; [reflexivity | split; [done | by right]]).
  - exists direction, (S i). split; [done |]. split; [by destruct direction | by left].
Qed.

Lemma fresh_array_unused (σ : gmap nat (list Position)) :
  σ !! fresh (dom σ) = None.
Proof. apply not_elem_of_dom, is_fresh. Qed.

(** Against C9 as stated: a snapshot with the food on the cell in front of
    the head, and a random source that always yields 0.5.  The new head
    reaches the food and every cell drawn for the new food is (10,10), the
    new head itself, so [simulatePlayerTick] never returns. *)
Lemma simulatePlayerTick_never_returns :
  let σ : gmap nat (list Position) :=
    {[ 0%nat := [mkPos 9 10; mkPos 8 10; mkPos 7 10] ]} in
  let player := {| lp_id := "live1"; lp_username := "NeonViper";
                   lp_avatar := None; lp_score := 340; lp_mode := walls;
                   lp_snake := 0%nat; lp_food := mkPos 10 10;
                   lp_direction := RIGHT; lp_status := playing;
                   lp_viewers := 42 |} in
  unit_source (fun _ => 1 # 2) /\
  (forall fuel, simulatePlayerTick fuel (fun _ => 1 # 2) 0 σ player 20 = OutOfFuel) /\
  ~ (exists fuel r, simulatePlayerTick fuel (fun _ => 1 # 2) 0 σ player 20 = Returns r).
Proof.
  intros σ player.
  assert (Hloop : forall fuel,
            simulatePlayerTick fuel (fun _ => 1 # 2) 0 σ player 20 = OutOfFuel).
  { intros fuel. unfold simulatePlayerTick.
    replace (σ !! lp_snake player)
      with (Some [mkPos 9 10; mkPos 8 10; mkPos 7 10]) by (vm_compute; reflexivity).
    cbn [simHead lp_direction lp_food player px py].
    change (samePos (mkPos (Z.rem (9 + 1) 20) 10) (mkPos 10 10)) with true.
    cbv iota.
    rewrite generateRandomFood_none; [done |].
    intros j _. apply list_elem_of_here. }
  split; [| split].
  - intros j. unfold Qle, Qlt. simpl. lia.
  - exact Hloop.
  - intros (fuel & r & Hret). by rewrite Hloop in Hret.
Qed.

(** C9 (amended).  For a snapshot whose snake has a head inside the grid of
    side [gridSize], and a random source within the contract of
    [Math.random], every snapshot [simulatePlayerTick] returns refers to a
    newly allocated snake array, every array that existed before (the input
    snake among them) is unchanged, the new head is one torus step from the
    old head in the input direction whatever the mode, the status and the
    other fields are those of the input, and the direction is not the
    reversal of the input direction.  If the new head is the food cell the
    score is raised by 10, the snake is the old one with the new head in
    front (one segment longer) and the new food is the first drawn cell
    outside it; otherwise score and food are unchanged and the snake keeps
    its length.  The call returns whenever the new head is not the food
    cell; when it is, the call returns as soon as a drawn cell is outside
    the new snake, and it has not returned as long as every drawn cell is on
    the new snake. *)
Theorem simulatePlayerTick_spec (fuel : nat) (rnd : nat -> Q) (i : nat)
    (σ : gmap nat (list Position)) (player : LivePlayer) (gridSize : Z)
    (head : Position) (tl : list Position) :
  unit_source rnd ->
  0 < gridSize ->
  σ !! lp_snake player = Some (head :: tl) ->
  0 <= px head < gridSize -> 0 <= py head < gridSize ->
  let newHead := torusStep head (lp_direction player) gridSize in
  (forall player' σ' i',
     simulatePlayerTick fuel rnd i σ player gridSize = Returns (player', σ', i') ->
     (lp_snake player' ∉ dom σ) /\
     (forall l, l ∈ dom σ -> σ' !! l = σ !! l) /\
     σ' !! lp_snake player = Some (head :: tl) /\
     lp_status player' = lp_status player /\
     lp_mode player' = lp_mode player /\
     lp_id player' = lp_id player /\ lp_username player' = lp_username player /\
     lp_avatar player' = lp_avatar player /\ lp_viewers player' = lp_viewers player /\
     lp_direction player' ≠ getOppositeDirection (lp_direction player) /\
     exists body,
       σ' !! lp_snake player' = Some (newHead :: body) /\
       (newHead = lp_food player ->
          lp_score player' = lp_score player + 10 /\
          body = head :: tl /\
          length (newHead :: body) = S (length (head :: tl)) /\
          (lp_food player' ∉ newHead :: body) /\
          exists k, (k < fuel)%nat /\
                    lp_food player' = drawAt rnd i gridSize k /\
                    forall j, (j < k)%nat ->
                              drawAt rnd i gridSize j ∈ newHead :: body) /\
       (newHead ≠ lp_food player ->
          lp_score player' = lp_score player /\
          body = js_pop (head :: tl) /\
          length (newHead :: body) = length (head :: tl) /\
          lp_food player' = lp_food player)) /\
  (newHead ≠ lp_food player ->
     exists r, simulatePlayerTick fuel rnd i σ player gridSize = Returns r) /\
  (forall k, (k < fuel)%nat ->
     drawAt rnd i gridSize k ∉ newHead :: head :: tl ->
     exists r, simulatePlayerTick fuel rnd i σ player gridSize = Returns r) /\
  (newHead = lp_food player ->
   (forall k, (k < fuel)%nat -> drawAt rnd i gridSize k ∈ newHead :: head :: tl) ->
   simulatePlayerTick fuel rnd i σ player gridSize = OutOfFuel).
Proof.
  intros Hu Hn Hσ Hx Hy newHead.
  pose proof (fresh_array_unused σ) as Hfresh.
  assert (Hne : lp_snake player ≠ fresh (dom σ)) by (intros Heq; congruence).
  unfold simulatePlayerTick. rewrite Hσ.
  rewrite (simHead_torus _ _ _ Hn Hx Hy). fold newHead.
  destruct (samePos newHead (lp_food player)) eqn:Hsame.
  - (* the food is eaten *)
    apply samePos_true in Hsame.
    destruct (generateRandomFood fuel rnd i gridSize (newHead :: head :: tl))
      as [[f i1]|] eqn:Hgen; simpl.
    + destruct (randomTurn_legal rnd i1 (lp_direction player) Hu)
        as (d' & i2 & -> & Hd' & _). simpl.
      split; [| split; [done | split; [eauto |]]].
      * intros player' σ' i' [= <- <- <-]. simpl.
        split; [by apply not_elem_of_dom |].
        split; [intros l Hl; apply lookup_insert_ne; intros <-;
                apply elem_of_dom in Hl as [? ?]; congruence |].
        split; [by rewrite lookup_insert_ne |].
        do 6 (split; [done |]). split; [done |].
        exists (head :: tl). split; [apply lookup_insert_eq |].
        split; [| done]. intros _.
        apply generateRandomFood_inv in Hgen as (k & Hk & Hf & _ & Hfree & Hbefore).
        do 3 (split; [done |]). split; [done |]. by exists k.
      * intros _ Hall. by rewrite generateRandomFood_none in Hgen.
    + split; [done |]. split; [done |]. split; [| done].
      intros k Hk Hfree.
      destruct (generateRandomFood_terminates rnd gridSize _ fuel i k Hfree Hk) as [? ?].
      congruence.
  - (* the food is not eaten *)
    apply samePos_false in Hsame. simpl.
    destruct (randomTurn_legal rnd i (lp_direction player) Hu)
      as (d' & i2 & -> & Hd' & _). simpl.
    split; [| split; [eauto | split; [eauto | done]]].
    intros player' σ' i' [= <- <- <-]. simpl.
    split; [by apply not_elem_of_dom |].
    split; [intros l Hl; rewrite lookup_alter_ne, lookup_insert_ne; [done | |];
            intros <-; apply elem_of_dom in Hl as [? ?]; congruence |].
    split; [by rewrite lookup_alter_ne, lookup_insert_ne |].
    do 6 (split; [done |]). split; [done |].
    exists (js_pop (head :: tl)).
    split; [rewrite lookup_alter_eq, lookup_insert_eq; simpl; by rewrite js_pop_cons |].
    split; [done |]. intros _. repeat split.
    simpl. rewrite length_js_pop. simpl. lia.
Qed.

Lemma simulatePlayerTick_spec_witness :
  let σ : gmap nat (list Position) :=
    {[ 0%nat := [mkPos 19 10; mkPos 18 10; mkPos 17 10] ]} in
  let player := {| lp_id := "live3"; lp_username := "ProGamer99";
                   lp_avatar := None; lp_score := 560; lp_mode := walls;
                   lp_snake := 0%nat; lp_food := mkPos 0 10;
                   lp_direction := RIGHT; lp_status := game_over;
                   lp_viewers := 156 |} in
  exists player' σ' i',
    simulatePlayerTick 1 (fun _ => 1 # 4) 0 σ player 20 = Returns (player', σ', i') /\
    σ' !! 0%nat = Some [mkPos 19 10; mkPos 18 10; mkPos 17 10] /\
    σ' !! lp_snake player'
      = Some [mkPos 0 10; mkPos 19 10; mkPos 18 10; mkPos 17 10] /\
    lp_score player' = 570 /\
    lp_status player' = game_over /\
    lp_direction player' ≠ LEFT.
Proof.
  intros σ player.
  destruct (simulatePlayerTick_spec 1 (fun _ => 1 # 4) 0 σ player 20
              (mkPos 19 10) [mkPos 18 10; mkPos 17 10])
    as (Hprops & _ & Hterm & _).
  - intros j. unfold Qle, Qlt. simpl. lia.
  - lia.
  - reflexivity.
  - simpl. lia.
  - simpl. lia.
  - destruct (Hterm 0%nat) as [[[player' σ'] i'] Hret].
    + lia.
    + not_in_cells.
    + exists player', σ', i'. split; [exact Hret |].
      destruct (Hprops player' σ' i' Hret)
        as (_ & _ & Hin & Hst & _ & _ & _ & _ & _ & Hdir & body & Hsn & Heat & _).
      destruct (Heat eq_refl) as (Hsc & -> & _ & _ & _).
      split; [exact Hin |]. split; [exact Hsn |].
      split; [exact Hsc |]. split; [exact Hst | exact Hdir].
Defined.

(** ** Direction requests and the segment behind the head *)

Lemma stepHead_delta head d :
  stepHead head d = mkPos (px head + dx d) (py head + dy d).
Proof. destruct d; simpl; f_equal; lia. Qed.

Lemma coherent_same_motion s s' :
  snake s' = snake s -> direction s' = direction s ->
  nextDirection s' = nextDirection s ->
  coherent s -> coherent s'.
Proof.
  intros Hsn Hd Hn (head & second & rest & H).
  exists head, second, rest. by rewrite Hsn, Hd, Hn.
Qed.

Lemma proposedHead_step head d m newHead :
  inGrid head ->
  proposedHead head d m = Some newHead ->
  inGrid newHead /\
  (px newHead - px head - dx d) mod GRID_SIZE = 0 /\
  (py newHead - py head - dy d) mod GRID_SIZE = 0.
Proof.
  intros Hin Hp. destruct m.
  - rewrite proposedHead_walls in Hp.
    destruct (outOfBounds _) eqn:Hout; [done |]. injection Hp as <-.
    apply outOfBounds_false in Hout. split; [done |].
    rewrite stepHead_delta. simpl.
    split; (replace (_ - _ - _) with 0 by lia); done.
  - rewrite proposedHead_pass_through in Hp. injection Hp as <-.
    split; [by apply wrapPos_inGrid |].
    rewrite (wrapPos_mod _ _ Hin), stepHead_delta. simpl.
    split.
    + replace (_ - _ - _)
        with ((px head + dx d) mod GRID_SIZE - (px head + dx d)) by lia.
      by rewrite Zminus_mod_idemp_l, Z.sub_diag.
    + replace (_ - _ - _)
        with ((py head + dy d) mod GRID_SIZE - (py head + dy d)) by lia.
      by rewrite Zminus_mod_idemp_l, Z.sub_diag.
Qed.

Lemma opposite_deltas p d :
  dx p + dx d = 0 -> dy p + dy d = 0 -> p = getOppositeDirection d.
Proof. destruct p, d; simpl; intros; done || lia. Qed.

(** In a coherent state no accepted direction leads onto the second
    segment. *)
Lemma coherent_not_onto_second s head second rest p newHead :
  coherent s ->
  snake s = head :: second :: rest ->
  p ≠ getOppositeDirection (direction s) ->
  proposedHead head p (mode s) = Some newHead ->
  newHead ≠ second /\ head ≠ second.
Proof.
  intros (h & sd & r & Hsn & Hh & Hsd & Hx & Hy & _) Hsn' Hp Hprop.
  rewrite Hsn' in Hsn. injection Hsn as <- <- <-.
  destruct (proposedHead_step _ _ _ _ Hh Hprop) as (Hn & Hnx & Hny).
  unfold inGrid, GRID_SIZE in *.
  pose proof (Z.div_mod (px head - px second - dx (direction s)) 20 ltac:(lia)).
  pose proof (Z.div_mod (py head - py second - dy (direction s)) 20 ltac:(lia)).
  pose proof (Z.div_mod (px newHead - px head - dx p) 20 ltac:(lia)).
  pose proof (Z.div_mod (py newHead - py head - dy p) 20 ltac:(lia)).
  assert (Hdx : forall d, -1 <= dx d <= 1) by (intros []; simpl; lia).
  assert (Hdy : forall d, -1 <= dy d <= 1) by (intros []; simpl; lia).
  pose proof (Hdx p). pose proof (Hdy p).
  pose proof (Hdx (direction s)). pose proof (Hdy (direction s)).
  split.
  - intros ->. apply Hp, opposite_deltas; lia.
  - intros ->.
    assert (dx (direction s) = 0) by lia. assert (dy (direction s) = 0) by lia.
    destruct (direction s); simpl in *; lia.
Qed.

Lemma createInitialState_coherent fuel rnd i store m s i' :
  createInitialState fuel rnd i store m = Returns (s, i') -> coherent s.
Proof.
  unfold createInitialState.
  destruct (generateRandomPosition _ _ _ _) as [[food0 i0]|]; [| done].
  intros [= <- <-].
  exists (mkPos 10 10), (mkPos 9 10), [mkPos 8 10].
  unfold inGrid, GRID_SIZE. simpl. repeat split; done || lia.
Qed.

Lemma setDirection_coherent d s : coherent s -> coherent (setDirection d s).
Proof.
  intros Hc. unfold setDirection.
  destruct (decide (status s ≠ playing)); [done |].
  destruct (decide (d = getOppositeDirection (direction s))); [done |].
  destruct Hc as (head & second & rest & Hsn & Hh & Hsd & Hx & Hy & _).
  by exists head, second, rest.
Qed.

Lemma tick_coherent fuel rnd i s next writes i' :
  coherent s -> tick fuel rnd i s = Returns (next, writes, i') -> coherent next.
Proof.
  intros Hc Ht.
  destruct (decide (status s = playing)) as [Hs | Hs];
    [| rewrite tick_not_playing in Ht by done; by injection Ht as <- _ _].
  destruct (tick_playing_returns _ _ _ _ _ Hs Ht) as (newSnake & [|] & Hm).
  - rewrite (tick_collision _ _ _ _ _ Hs Hm) in Ht. injection Ht as <- _ _.
    by apply (coherent_same_motion s).
  - destruct (moveSnake_ok_inv _ _ _ _ Hm) as (head & rest & newHead & Hsn & Hp & _ & ->).
    destruct Hc as (h & second & r & Hsn' & Hh & _ & _ & _ & _).
    rewrite Hsn' in Hsn. injection Hsn as <- <-.
    destruct (proposedHead_step _ _ _ _ Hh Hp) as (Hn & Hnx & Hny).
    assert (Hpop : js_pop (snake s) = h :: js_pop (second :: r))
      by (rewrite Hsn'; apply js_pop_cons).
    rewrite Hpop in Hm.
    assert (Hopp : forall d, d ≠ getOppositeDirection d) by (by intros []).
    destruct (decide (newHead = food s)) as [-> | Hne].
    + destruct (growSnake_cons (food s) (h :: js_pop (second :: r))) as (tail & Hl & _).
      rewrite (tick_eat _ _ _ _ _ tail Hs Hm Hl) in Ht.
      destruct (generateRandomPosition _ _ _ _) as [[food' i'']|]; [| done].
      injection Ht as <- _ _.
      exists (food s), h, (js_pop (second :: r) ++ [tail]). simpl.
      split_and!; done.
    + rewrite (tick_advance _ _ _ _ _ _ Hs Hm Hne) in Ht. injection Ht as <- _ _.
      exists newHead, h, (js_pop (second :: r)). simpl.
      split_and!; done.
Qed.

(** Every state of a session is coherent. *)
Lemma reachable_coherent s : reachable s -> coherent s.
Proof.
  induction 1 as [fuel rnd i store m s i' Hinit
                 | s _ IH | s _ IH | d s _ IH
                 | fuel rnd i s s' writes i' _ IH Ht].
  - by eapply createInitialState_coherent.
  - by apply (coherent_same_motion s).
  - by apply (coherent_same_motion s).
  - by apply setDirection_coherent.
  - by eapply tick_coherent.
Qed.

Lemma setDirection_accepted d s :
  accepted d s -> setDirection d s = withPending d s.
Proof.
  intros [Hs Hd]. unfold setDirection.
  rewrite decide_False by (rewrite Hs; auto). by rewrite decide_False.
Qed.

Lemma setDirection_rejected d s : ~ accepted d s -> setDirection d s = s.
Proof.
  intros Hno. unfold setDirection.
  destruct (decide (status s ≠ playing)); [done |].
  destruct (decide (d = getOppositeDirection (direction s))); [done |].
  destruct Hno. split; [| done].
  by destruct (decide (status s = playing)).
Qed.

(** After any sequence of requests the snake, the committed direction, the
    mode and the status are as before, and the state is still coherent. *)
Lemma requests_keep_motion (ds : list Direction) s :
  let s' := foldl (fun st d => setDirection d st) s ds in
  snake s' = snake s /\ direction s' = direction s /\ mode s' = mode s /\
  status s' = status s /\ (coherent s -> coherent s').
Proof.
  revert s. induction ds as [|d ds IH]; intros s; simpl; [done |].
  destruct (IH (setDirection d s)) as (-> & -> & -> & -> & Hc).
  assert (H : snake (setDirection d s) = snake s /\
              direction (setDirection d s) = direction s /\
              mode (setDirection d s) = mode s /\
              status (setDirection d s) = status s).
  { unfold setDirection. destruct (decide _); [done |]. by destruct (decide _). }
  destruct H as (-> & -> & -> & ->). repeat split; try done.
  intros H. by apply Hc, setDirection_coherent.
Qed.

Lemma coherent_head_ne_second s head second rest :
  coherent s -> snake s = head :: second :: rest -> head ≠ second.
Proof.
  intros (h & sd & r & Hsn & Hh & Hsd & Hx & Hy & _) Hsn'.
  rewrite Hsn' in Hsn. injection Hsn as <- <- <-. intros ->.
  unfold GRID_SIZE in *. destruct (direction s); simpl in *;
    rewrite ?Z.sub_diag in *; done.
Qed.

(** The head after a tick of a coherent playing state is never on the cell
    of the second segment before the tick. *)
Lemma coherent_tick_head s fuel rnd i next writes i' :
  coherent s -> status s = playing ->
  tick fuel rnd i s = Returns (next, writes, i') ->
  is_Some (snake s !! 1%nat) /\ snake next !! 0%nat ≠ snake s !! 1%nat.
Proof.
  intros Hc Hs Ht.
  pose proof Hc as (head & second & rest & Hsn & _ & _ & _ & _ & Hpend).
  rewrite Hsn. simpl. split; [by eexists |].
  destruct (tick_playing_returns _ _ _ _ _ Hs Ht) as (newSnake & [|] & Hm).
  - rewrite (tick_collision _ _ _ _ _ Hs Hm) in Ht. injection Ht as <- _ _.
    simpl. rewrite Hsn. simpl. intros [= Heq].
    by apply (coherent_head_ne_second _ _ _ _ Hc Hsn).
  - destruct (moveSnake_ok_inv _ _ _ _ Hm) as (h & r & newHead & Hsn' & Hp & _ & ->).
    rewrite Hsn in Hsn'. injection Hsn' as <- <-.
    destruct (tick_move_keeps_playing _ _ _ _ _ _ _ _ _ Hs Hm Ht) as [_ ->].
    intros [= Heq].
    by destruct (coherent_not_onto_second _ _ _ _ _ _ Hc Hsn Hpend Hp).
Qed.

(** Outside the states of a session: a state whose committed direction is
    not the one the snake last moved in.  There two accepted requests, the
    second the reversal of the first, do put the head on the second segment.
    Such a state is not reachable. *)
Example reversal_on_incoherent_state :
  let s := {| snake := [mkPos 10 10; mkPos 10 11; mkPos 10 12]; food := mkPos 3 3;
              direction := RIGHT; nextDirection := RIGHT;
              score := 0; highScore := 0; status := playing;
              mode := walls; speed := 150 |} in
  (exists next,
     tick 0 (fun _ => 0%Q) 0 (setDirection DOWN (setDirection UP s))
       = Returns (next, [], 0%nat) /\
     status next = playing /\ snake next !! 0%nat = snake s !! 1%nat) /\
  ~ reachable s.
Proof.
  intros s. split.
  - eexists. split; [vm_compute; reflexivity | done].
  - intros Hr. apply reachable_coherent in Hr.
    destruct Hr as (h & sd & r & Hsn & _ & _ & Hx & _). simpl in Hsn.
    injection Hsn as <- <- <-. vm_compute in Hx. done.
Qed.

(** Against C10 as stated: in no state of a session do two accepted
    requests, the second reversing the first, make the next tick move the
    head onto the second segment. *)
Lemma pending_reversal_never_onto_second :
  ~ (exists s r1 r2 fuel rnd i next writes i',
       reachable s /\
       accepted r1 s /\ accepted r2 (setDirection r1 s) /\
       r2 = getOppositeDirection r1 /\
       tick fuel rnd i (setDirection r2 (setDirection r1 s))
         = Returns (next, writes, i') /\
       status next = playing /\
       snake next !! 0%nat = snake s !! 1%nat).
Proof.
  intros (s & r1 & r2 & fuel & rnd & i & next & writes & i'
          & Hr & Ha1 & Ha2 & _ & Ht & _ & Heq).
  pose proof (requests_keep_motion [r1; r2] s) as (Hsn & _ & _ & Hst & Hc).
  simpl in *.
  destruct (coherent_tick_head _ _ _ _ _ _ _
              (Hc (reachable_coherent _ Hr)) (eq_trans Hst (proj1 Ha1)) Ht)
    as [_ Hne].
  apply Hne. by rewrite Hsn.
Qed.

(** C10 (amended).  [setDirection] ignores a request exactly when the status
    is not playing or the request is the opposite of the committed
    direction; otherwise the request becomes the pending direction.  The
    pending direction plays no part in the test, so of two requests between
    two ticks the second may be the reversal of the first (both are
    perpendicular to the committed direction) and it is the second that
    stays pending.  Whatever requests arrive between two ticks of a session,
    the next tick never puts the head on the cell of the segment behind the
    head. *)
Theorem setDirection_against_committed_direction :
  (forall d s,
     (accepted d s -> setDirection d s = withPending d s) /\
     (~ accepted d s -> setDirection d s = s)) /\
  (forall d p s, accepted d (withPending p s) <-> accepted d s) /\
  (forall s r1,
     status s = playing ->
     r1 ≠ direction s -> r1 ≠ getOppositeDirection (direction s) ->
     accepted r1 s /\
     accepted (getOppositeDirection r1) (setDirection r1 s) /\
     nextDirection (setDirection r1 s) = r1 /\
     nextDirection (setDirection (getOppositeDirection r1) (setDirection r1 s))
       = getOppositeDirection r1) /\
  (forall s ds fuel rnd i next writes i',
     reachable s ->
     status s = playing ->
     tick fuel rnd i (foldl (fun st d => setDirection d st) s ds)
       = Returns (next, writes, i') ->
     is_Some (snake s !! 1%nat) /\ snake next !! 0%nat ≠ snake s !! 1%nat).
Proof.
  split; [| split; [| split]].
  - intros d s. split; [apply setDirection_accepted | apply setDirection_rejected].
  - done.
  - intros s r1 Hs Hne Hopp.
    assert (Ha1 : accepted r1 s) by done.
    rewrite (setDirection_accepted _ _ Ha1).
    assert (Ha2 : accepted (getOppositeDirection r1) (withPending r1 s)).
    { split; [done |]. simpl. destruct r1, (direction s); done. }
    rewrite (setDirection_accepted _ _ Ha2). done.
  - intros s ds fuel rnd i next writes i' Hr Hs Ht.
    pose proof (requests_keep_motion ds s) as (Hsn & _ & _ & Hst & Hc).
    simpl in *. rewrite <- Hsn.
    apply (coherent_tick_head _ fuel rnd i next writes i');
      [by apply Hc, reachable_coherent | congruence | done].
Qed.

Lemma setDirection_against_committed_direction_witness :
  let s0 := {| snake := [mkPos 10 10; mkPos 9 10; mkPos 8 10]; food := mkPos 5 5;
               direction := RIGHT; nextDirection := RIGHT;
               score := 0; highScore := 0; status := playing;
               mode := walls; speed := 150 |} in
  nextDirection (setDirection DOWN (setDirection UP s0)) = DOWN /\
  exists next writes i',
    tick 0 (fun _ => 1 # 4) 0 (setDirection DOWN (setDirection UP s0))
      = Returns (next, writes, i') /\
    snake next !! 0%nat = Some (mkPos 10 11) /\
    snake next !! 0%nat ≠ snake s0 !! 1%nat.
Proof.
  intros s0.
  destruct setDirection_against_committed_direction as (_ & _ & Hpair & Hsafe).
  split.
  - apply (Hpair s0 UP); [reflexivity | discriminate | discriminate].
  - eexists _, _, _. split; [vm_compute; reflexivity |].
    split; [reflexivity |].
    eapply (Hsafe s0 [UP; DOWN] 0%nat (fun _ => 1 # 4) 0%nat).
    + apply started_session_reachable.
      * not_in_cells.
      * exists (fun _ => 1 # 4). reflexivity.
    + reflexivity.
    + vm_compute. reflexivity.
Defined.


(** * Further properties of the hook *)

(** ** The outcomes of a tick, and invariants of a session *)

Lemma tick_cases fuel rnd i s next writes i' :
  tick fuel rnd i s = Returns (next, writes, i') ->
  (status s ≠ playing /\ next = s /\ writes = [] /\ i' = i) \/
  (status s = playing /\
   moveSnake (snake s) (nextDirection s) (mode s) = Returns (snake s, true) /\
   next = gameOverState s /\ i' = i /\
   writes = if score s >? highScore s
            then [(highscoreKey (mode s), score s)] else []) \/
  (status s = playing /\
   exists newHead body,
     moveSnake (snake s) (nextDirection s) (mode s)
       = Returns (newHead :: body, false) /\
     newHead ≠ food s /\
     next = advancedState s (newHead :: body) /\ writes = [] /\ i' = i) \/
  (status s = playing /\
   exists body tail newFood,
     moveSnake (snake s) (nextDirection s) (mode s)
       = Returns (food s :: body, false) /\
     last (food s :: body) = Some tail /\
     generateRandomPosition fuel rnd i ((food s :: body) ++ [tail])
       = Some (newFood, i') /\
     next = grownState s ((food s :: body) ++ [tail]) newFood /\
     writes = if score s + 10 >? highScore s
              then [(highscoreKey (mode s), Z.max (score s + 10) (highScore s))]
              else []).
Proof.
  intros Ht. destruct (decide (status s = playing)) as [Hs | Hs].
  - right. destruct (tick_playing_returns _ _ _ _ _ Hs Ht) as (newSnake & [|] & Hm).
    + left. destruct (moveSnake_collision_inv _ _ _ _ Hm) as [-> _].
      rewrite (tick_collision _ _ _ _ _ Hs Hm) in Ht. by injection Ht as <- <- <-.
    + right. destruct (moveSnake_ok_inv _ _ _ _ Hm) as (h & r & newHead & _ & _ & _ & ->).
      destruct (decide (newHead = food s)) as [-> | Hne].
      * right. split; [done |].
        destruct (growSnake_cons (food s) (js_pop (snake s))) as (tail & Hl & _).
        rewrite (tick_eat _ _ _ _ _ tail Hs Hm Hl) in Ht.
        destruct (generateRandomPosition _ _ _ _) as [[newFood i'']|] eqn:Hgen; [| done].
        injection Ht as <- <- <-. unfold grownState. rewrite Hs. by eexists _, _, _.
      * left. split; [done |].
        rewrite (tick_advance _ _ _ _ _ _ Hs Hm Hne) in Ht.
        injection Ht as <- <- <-. by eexists _, _.
  - left. rewrite (tick_not_playing _ _ _ _ Hs) in Ht. by injection Ht as <- <- <-.
Qed.

(** To show that a property of the snake, the food, the committed
    direction, the score, the speed and the mode holds in every state of a
    session, it is enough to show it of the initial state and to carry it
    over a move and over a move that eats. *)
Lemma reachable_invariant (P : GameState -> Prop) :
  (forall fuel rnd i store m s i',
     createInitialState fuel rnd i store m = Returns (s, i') -> P s) ->
  (forall s s',
     snake s' = snake s -> food s' = food s -> direction s' = direction s ->
     score s' = score s -> speed s' = speed s -> mode s' = mode s ->
     P s -> P s') ->
  (forall s newHead body,
     reachable s -> P s -> status s = playing ->
     moveSnake (snake s) (nextDirection s) (mode s)
       = Returns (newHead :: body, false) ->
     newHead ≠ food s ->
     P (advancedState s (newHead :: body))) ->
  (forall s body tail newFood fuel rnd i i',
     reachable s -> P s -> status s = playing ->
     moveSnake (snake s) (nextDirection s) (mode s)
       = Returns (food s :: body, false) ->
     last (food s :: body) = Some tail ->
     generateRandomPosition fuel rnd i ((food s :: body) ++ [tail])
       = Some (newFood, i') ->
     P (grownState s ((food s :: body) ++ [tail]) newFood)) ->
  forall s, reachable s -> P s.
Proof.
  intros Hinit Hframe Hmove Heat s Hr.
  induction Hr as [fuel rnd i store m s i' Hi
                  | s Hr IH | s Hr IH | d s Hr IH
                  | fuel rnd i s s' writes i' Hr IH Ht].
  - by eapply Hinit.
  - by apply (Hframe s).
  - by apply (Hframe s).
  - apply (Hframe s); try done; unfold setDirection;
      destruct (decide _); try done; by destruct (decide _).
  - destruct (tick_cases _ _ _ _ _ _ _ Ht)
      as [(_ & -> & _) | [(_ & _ & -> & _) | [(Hs & nh & body & Hm & Hne & -> & _)
         | (Hs & body & tail & newFood & Hm & Hl & Hgen & -> & _)]]].
    + done.
    + by apply (Hframe s).
    + by apply Hmove.
    + by eapply Heat.
Qed.

Lemma session_reachable s store : session s store -> reachable s.
Proof.
  induction 1; by econstructor.
Qed.

Lemma elem_of_js_pop {A} (x : A) (l : list A) : x ∈ js_pop l -> x ∈ l.
Proof.
  unfold js_pop. intros (i & Hi & _)%elem_of_take. by eapply list_elem_of_lookup_2.
Qed.

Lemma js_pop_snoc {A} (l : list A) (x : A) : js_pop (l ++ [x]) = l.
Proof.
  unfold js_pop. rewrite length_app. simpl.
  replace (length l + 1 - 1)%nat with (length l) by lia. apply take_app_length.
Qed.

Lemma js_pop_lookup {A} (l : list A) (k : nat) :
  (S k < length l)%nat -> js_pop l !! k = l !! k.
Proof. intros Hk. unfold js_pop. apply lookup_take_lt. lia. Qed.

(** The cells before the tail are the head, the segment behind it and the
    cells the self-collision test compares. *)
Lemma elem_of_js_pop_inv (head second : Position) rest x :
  x ∈ js_pop (head :: second :: rest) ->
  x = head \/ x = second \/ x ∈ js_slice 2 (-1) (head :: second :: rest).
Proof.
  rewrite js_slice_2_m1, js_pop_cons.
  intros [-> | Hx]%elem_of_cons; [by left |]. right.
  destruct rest as [|third rest]; [by apply elem_of_nil in Hx |].
  rewrite js_pop_cons in Hx. apply elem_of_cons in Hx as [-> | Hx]; [by left | right].
  unfold js_pop in Hx. simpl in *. by rewrite Nat.sub_0_r in *.
Qed.

Lemma moveSnake_ok_length snake d m newSnake :
  moveSnake snake d m = Returns (newSnake, false) ->
  length newSnake = length snake.
Proof.
  intros (head & rest & newHead & -> & _ & _ & ->)%moveSnake_ok_inv.
  simpl. rewrite length_js_pop. simpl. lia.
Qed.

Lemma proposedHead_moves head d m newHead :
  inGrid head -> proposedHead head d m = Some newHead -> newHead ≠ head.
Proof.
  intros Hin Hp. destruct (proposedHead_step _ _ _ _ Hin Hp) as (_ & Hx & Hy).
  intros ->. rewrite Z.sub_diag in Hx, Hy. unfold GRID_SIZE in *.
  destruct d; simpl in *; done.
Qed.

(** ** Score, length and speed *)

(** X1.  In every state of a session the score is ten times the number of
    segments beyond the initial three, the snake has at least three
    segments, and the speed is [calculateSpeed] of the score. *)
Theorem session_score_length_speed (s : GameState) :
  reachable s ->
  score s = 10 * (Z.of_nat (length (snake s)) - 3) /\
  (3 <= length (snake s))%nat /\
  0 <= score s /\
  speed s = calculateSpeed (score s).
Proof.
  intros Hr.
  enough (H : score s = 10 * (Z.of_nat (length (snake s)) - 3) /\
              (3 <= length (snake s))%nat /\ speed s = calculateSpeed (score s))
    by (destruct H as (? & ? & ?); repeat split; try done; lia).
  revert s Hr. apply reachable_invariant.
  - intros fuel rnd i store m s i'. unfold createInitialState.
    destruct (generateRandomPosition _ _ _ _) as [[f0 i0]|]; [| done].
    by intros [= <- <-].
  - intros s s' Hsn _ _ Hsc Hsp _. by rewrite Hsn, Hsc, Hsp.
  - intros s nh body _ (Hsc & Hlen & Hsp) _ Hm _.
    apply moveSnake_ok_length in Hm.
    unfold advancedState. cbn [snake score speed]. by rewrite Hm.
  - intros s body tail newFood fuel rnd i i' _ (Hsc & Hlen & Hsp) _ Hm _ _.
    apply moveSnake_ok_length in Hm.
    unfold grownState. cbn [snake score speed].
    rewrite length_app, Hm. cbn [length]. repeat split; lia.
Qed.

(** A session that has eaten once: started with the food right of the head,
    then one tick. *)
Lemma fed_session_reachable :
  reachable {| snake := [mkPos 11 10; mkPos 10 10; mkPos 9 10; mkPos 9 10];
               food := mkPos 5 5;
               direction := RIGHT; nextDirection := RIGHT;
               score := 10; highScore := 10; status := playing;
               mode := walls; speed := 150 |}.
Proof.
  eapply (reach_tick 1 (fun _ => 1 # 4) 0).
  - apply (started_session_reachable (mkPos 11 10)).
    + not_in_cells.
    + exists (fun i => match i with O => 11 # 20 | _ => 1 # 2 end). reflexivity.
  - vm_compute. reflexivity.
Qed.

Lemma session_score_length_speed_witness :
  let s := {| snake := [mkPos 11 10; mkPos 10 10; mkPos 9 10; mkPos 9 10];
              food := mkPos 5 5;
              direction := RIGHT; nextDirection := RIGHT;
              score := 10; highScore := 10; status := playing;
              mode := walls; speed := 150 |} in
  score s = 10 * (Z.of_nat (length (snake s)) - 3) /\
  (3 <= length (snake s))%nat /\ 0 <= score s /\
  speed s = calculateSpeed (score s).
Proof.
  intros s. apply (session_score_length_speed s). apply fed_session_reachable.
Defined.

(** ** The snake stays in the grid, off the food and off itself *)

Lemma moveSnake_ok_inGrid snake d m newSnake :
  Forall inGrid snake ->
  moveSnake snake d m = Returns (newSnake, false) ->
  Forall inGrid newSnake.
Proof.
  intros Hall (head & rest & newHead & -> & Hp & _ & ->)%moveSnake_ok_inv.
  apply Forall_cons. split.
  - apply Forall_cons in Hall as [Hh _].
    by destruct (proposedHead_step _ _ _ _ Hh Hp).
  - unfold js_pop. by apply Forall_take.
Qed.

(** X2.  In every state of a session, in either mode, every segment of the
    snake is a cell of the grid. *)
Theorem session_snake_in_grid (s : GameState) :
  reachable s -> Forall inGrid (snake s).
Proof.
  revert s. apply reachable_invariant.
  - intros fuel rnd i store m s i'. unfold createInitialState.
    destruct (generateRandomPosition _ _ _ _) as [[f0 i0]|]; [| done].
    intros [= <- <-]. simpl. repeat constructor; by vm_compute.
  - intros s s' Hsn _ _ _ _ _. by rewrite Hsn.
  - intros s nh body _ Hall _ Hm _. by eapply moveSnake_ok_inGrid.
  - intros s body tail newFood fuel rnd i i' _ Hall _ Hm Hl _.
    pose proof (moveSnake_ok_inGrid _ _ _ _ Hall Hm) as Hnew.
    cbn [grownState snake]. apply Forall_app. split; [done |].
    apply Forall_singleton. eapply Forall_forall; [exact Hnew |].
    by apply last_Some_elem_of.
Qed.

Lemma session_snake_in_grid_witness :
  Forall inGrid [mkPos 11 10; mkPos 10 10; mkPos 9 10; mkPos 9 10].
Proof.
  apply (session_snake_in_grid
           {| snake := [mkPos 11 10; mkPos 10 10; mkPos 9 10; mkPos 9 10];
              food := mkPos 5 5;
              direction := RIGHT; nextDirection := RIGHT;
              score := 10; highScore := 10; status := playing;
              mode := walls; speed := 150 |}).
  apply fed_session_reachable.
Defined.

(** X3.  In every state of a session the food is not on the snake. *)
Theorem session_food_off_snake (s : GameState) :
  reachable s -> food s ∉ snake s.
Proof.
  revert s. apply reachable_invariant.
  - intros fuel rnd i store m s i'. unfold createInitialState.
    destruct (generateRandomPosition _ _ _ _) as [[f0 i0]|] eqn:Hgen; [| done].
    intros [= <- <-]. simpl. rewrite generateRandomPosition_food in Hgen.
    by apply generateRandomFood_inv in Hgen as (k & _ & _ & _ & Hfree & _).
  - intros s s' Hsn Hf _ _ _ _. by rewrite Hsn, Hf.
  - intros s nh body _ Hoff _ Hm Hne.
    apply moveSnake_ok_inv in Hm as (head & rest & newHead & _ & _ & _ & [= <- ->]).
    cbn [advancedState snake food].
    intros [Heq | Hin%elem_of_js_pop]%elem_of_cons; [by apply Hne | by apply Hoff].
  - intros s body tail newFood fuel rnd i i' _ _ _ _ _ Hgen.
    cbn [grownState snake food]. rewrite generateRandomPosition_food in Hgen.
    by apply generateRandomFood_inv in Hgen as (k & _ & _ & _ & Hfree & _).
Qed.

Lemma session_food_off_snake_witness :
  mkPos 5 5 ∉ [mkPos 11 10; mkPos 10 10; mkPos 9 10; mkPos 9 10].
Proof.
  apply (session_food_off_snake
           {| snake := [mkPos 11 10; mkPos 10 10; mkPos 9 10; mkPos 9 10];
              food := mkPos 5 5;
              direction := RIGHT; nextDirection := RIGHT;
              score := 10; highScore := 10; status := playing;
              mode := walls; speed := 150 |}).
  apply fed_session_reachable.
Defined.

(** In a coherent state the head of a successful move is on none of the
    cells before the tail. *)
Lemma moveSnake_new_head_fresh s newHead body :
  coherent s ->
  moveSnake (snake s) (nextDirection s) (mode s) = Returns (newHead :: body, false) ->
  body = js_pop (snake s) /\ newHead ∉ js_pop (snake s).
Proof.
  intros Hc Hm.
  pose proof Hc as (head & second & rest & Hsn & Hh & _ & _ & _ & Hpend).
  apply moveSnake_ok_inv in Hm as (h & r & nh & Hsn' & Hp & Hcmp & [= <- ->]).
  split; [done |].
  rewrite Hsn in Hsn'. injection Hsn' as <- <-. rewrite Hsn in *.
  intros [-> | [-> | Hin]]%elem_of_js_pop_inv.
  - by apply (proposedHead_moves _ _ _ _ Hh Hp).
  - by destruct (coherent_not_onto_second _ _ _ _ _ _ Hc Hsn Hpend Hp).
  - done.
Qed.

Lemma NoDup_js_pop {A} (l : list A) : NoDup l -> NoDup (js_pop l).
Proof. unfold js_pop. intros H. eapply sublist_NoDup; [done | apply sublist_take]. Qed.

(** X4.  In every state of a session the segments before the tail lie on
    pairwise distinct cells; the whole snake lies on pairwise distinct
    cells, except that its last two segments are on the same cell after a
    tick that has eaten. *)
Theorem session_snake_simple (s : GameState) :
  reachable s ->
  NoDup (js_pop (snake s)) /\
  (NoDup (snake s) \/ exists l t, snake s = l ++ [t; t] /\ NoDup (l ++ [t])).
Proof.
  revert s. apply reachable_invariant.
  - intros fuel rnd i store m s i'. unfold createInitialState.
    destruct (generateRandomPosition _ _ _ _) as [[f0 i0]|]; [| done].
    intros [= <- <-]. cbn [snake].
    assert (Hnd : NoDup [mkPos (GRID_SIZE / 2) (GRID_SIZE / 2);
                         mkPos (GRID_SIZE / 2 - 1) (GRID_SIZE / 2);
                         mkPos (GRID_SIZE / 2 - 2) (GRID_SIZE / 2)]).
    { apply (bool_decide_unpack _). by vm_compute. }
    split; [by apply NoDup_js_pop | by left].
  - intros s s' Hsn _ _ _ _ _. by rewrite Hsn.
  - intros s nh body Hr [Hnd _] _ Hm _.
    destruct (moveSnake_new_head_fresh _ _ _ (reachable_coherent _ Hr) Hm)
      as [-> Hfresh].
    cbn [advancedState snake].
    assert (Hnew : NoDup (nh :: js_pop (snake s))) by by apply NoDup_cons.
    split; [by apply NoDup_js_pop | by left].
  - intros s body tail newFood fuel rnd i i' Hr [Hnd _] _ Hm Hl _.
    destruct (moveSnake_new_head_fresh _ _ _ (reachable_coherent _ Hr) Hm)
      as [-> Hfresh].
    cbn [grownState snake].
    assert (Hnew : NoDup (food s :: js_pop (snake s))) by by apply NoDup_cons.
    split; [by rewrite js_pop_snoc |].
    right. apply last_Some in Hl as [l Hl]. exists l, tail.
    rewrite Hl in *. split; [by rewrite <- app_assoc | done].
Qed.

Lemma session_snake_simple_witness :
  NoDup (js_pop [mkPos 11 10; mkPos 10 10; mkPos 9 10; mkPos 9 10]).
Proof.
  apply (session_snake_simple
           {| snake := [mkPos 11 10; mkPos 10 10; mkPos 9 10; mkPos 9 10];
              food := mkPos 5 5;
              direction := RIGHT; nextDirection := RIGHT;
              score := 10; highScore := 10; status := playing;
              mode := walls; speed := 150 |}).
  apply fed_session_reachable.
Defined.

(** ** The high score and [localStorage] *)

Lemma highscoreKey_inj m1 m2 : highscoreKey m1 = highscoreKey m2 -> m1 = m2.
Proof. by destruct m1, m2. Qed.

Lemma tick_high_score fuel rnd i s next writes i' :
  tick fuel rnd i s = Returns (next, writes, i') ->
  mode next = mode s /\
  ((writes = [] /\ highScore next = highScore s) \/
   (writes = [(highscoreKey (mode s), highScore next)] /\
    highScore s < highScore next)).
Proof.
  intros Ht. destruct (tick_cases _ _ _ _ _ _ _ Ht)
    as [(_ & -> & -> & _) | [(_ & _ & -> & _ & ->)
       | [(_ & nh & body & _ & _ & -> & -> & _)
       | (_ & body & tail & newFood & _ & _ & _ & -> & ->)]]];
    (split; [done |]); cbn [gameOverState advancedState grownState highScore mode].
  - by left.
  - destruct (Z.gtb_spec (score s) (highScore s)); [right | left].
    + rewrite Z.max_l by lia. split; [done | lia].
    + split; [done | lia].
  - by left.
  - destruct (Z.gtb_spec (score s + 10) (highScore s)); [right | left].
    + split; [done | lia].
    + split; [done | lia].
Qed.

(** X5.  A tick never lowers the high score and writes to [localStorage]
    only when it raises it: then the one item written is the new high score,
    under the key of the session's mode, and every other key (the other
    mode's high score among them) is left as it was. *)
Theorem tick_writes_high_score (fuel : nat) (rnd : nat -> Q) (i : nat)
    (s next : GameState) (writes : list (string * Z)) (i' : nat)
    (store : gmap string Z) :
  tick fuel rnd i s = Returns (next, writes, i') ->
  highScore s <= highScore next /\
  (highScore next = highScore s -> setItems writes store = store) /\
  (highScore s < highScore next ->
     setItems writes store !! highscoreKey (mode s) = Some (highScore next)) /\
  (forall k, k ≠ highscoreKey (mode s) ->
     setItems writes store !! k = store !! k) /\
  (forall m, m ≠ mode s ->
     setItems writes store !! highscoreKey m = store !! highscoreKey m).
Proof.
  intros Ht.
  assert (Hother : forall k, k ≠ highscoreKey (mode s) ->
                             setItems writes store !! k = store !! k).
  { intros k Hk. destruct (tick_high_score _ _ _ _ _ _ _ Ht) as [_ [[-> _] | [-> _]]];
      [done | by apply lookup_insert_ne]. }
  destruct (tick_high_score _ _ _ _ _ _ _ Ht) as [_ [[-> Heq] | [-> Hlt]]].
  - split; [lia |]. split; [done |]. split; [lia |]. split; [done |].
    intros m Hm. apply Hother. by intros ?%highscoreKey_inj.
  - split; [lia |]. split; [lia |]. split; [intros _; apply lookup_insert_eq |].
    split; [done |]. intros m Hm. apply Hother. by intros ?%highscoreKey_inj.
Qed.

Lemma tick_writes_high_score_witness :
  let s := {| snake := [mkPos 19 10; mkPos 18 10; mkPos 17 10]; food := mkPos 3 3;
              direction := RIGHT; nextDirection := RIGHT;
              score := 40; highScore := 30; status := playing;
              mode := walls; speed := 150 |} in
  let store : gmap string Z :=
    {[ "snake_highscore_walls"%string := 30;
       "snake_highscore_pass-through"%string := 70 ]} in
  setItems [("snake_highscore_walls"%string, 40)] store
    !! "snake_highscore_walls"%string = Some 40 /\
  setItems [("snake_highscore_walls"%string, 40)] store
    !! "snake_highscore_pass-through"%string = Some 70.
Proof.
  intros s store.
  destruct (tick_writes_high_score 0 (fun _ => 0%Q) 0 s (gameOverState s)
              [("snake_highscore_walls"%string, 40)] 0%nat store)
    as (_ & _ & Hnew & _ & Hmode); [reflexivity |].
  split.
  - apply Hnew. simpl. lia.
  - refine (eq_trans (Hmode pass_through _) _); [discriminate | reflexivity].
Defined.

(** X6.  The high score of a session is always the one stored in
    [localStorage] under the key of its mode (0 when the key is absent); so
    a reset that keeps the mode shows the same high score again. *)
Theorem session_high_score_stored (s : GameState) (store : gmap string Z) :
  session s store ->
  highScore s = default 0 (store !! highscoreKey (mode s)) /\
  (forall fuel rnd i s' i',
     resetGame fuel rnd i store None s = Returns (s', i') ->
     highScore s' = highScore s /\ mode s' = mode s /\ score s' = 0 /\
     status s' = idle).
Proof.
  intros Hsess.
  assert (Hsync : highScore s = default 0 (store !! highscoreKey (mode s))).
  { induction Hsess as [fuel rnd i store m s i' Hinit
                       | s store _ IH | s store _ IH | d s store _ IH
                       | fuel rnd i s store s' writes i' _ IH Ht
                       | fuel rnd i s store modeArg s' i' _ _ Hreset].
    - unfold createInitialState in Hinit.
      destruct (generateRandomPosition _ _ _ _) as [[f0 i0]|]; [| done].
      by injection Hinit as <- <-.
    - done.
    - done.
    - unfold setDirection. destruct (decide _); [done |]. by destruct (decide _).
    - destruct (tick_high_score _ _ _ _ _ _ _ Ht) as [-> [[-> ->] | [-> _]]];
        [done |]. unfold setItems. simpl. by rewrite lookup_insert_eq.
    - unfold resetGame, createInitialState in Hreset.
      destruct (generateRandomPosition _ _ _ _) as [[f0 i0]|]; [| done].
      by injection Hreset as <- <-. }
  split; [done |].
  intros fuel rnd i s' i'. unfold resetGame, createInitialState. simpl.
  destruct (generateRandomPosition _ _ _ _) as [[f0 i0]|]; [| done].
  intros [= <- <-]. by rewrite Hsync.
Qed.

Lemma session_high_score_stored_witness :
  let s := {| snake := [mkPos 11 10; mkPos 10 10; mkPos 9 10; mkPos 9 10];
              food := mkPos 5 5;
              direction := RIGHT; nextDirection := RIGHT;
              score := 10; highScore := 10; status := playing;
              mode := walls; speed := 150 |} in
  highScore s
    = default 0 (setItems [("snake_highscore_walls"%string, 10)] ∅
                   !! highscoreKey (mode s)).
Proof.
  intros s.
  apply (session_high_score_stored s
           (setItems [("snake_highscore_walls"%string, 10)] ∅)).
  eapply (session_tick 1 (fun _ => 1 # 4) 0).
  - apply session_start.
    apply (session_mount 1 (fun i => match i with O => 11 # 20 | _ => 1 # 2 end)
                         0 ∅ walls _ 2%nat).
    vm_compute. reflexivity.
  - vm_compute. reflexivity.
Defined.

(** * Further properties of the helpers *)

(** X7.  [moveSnake] throws on the empty snake and returns on every other
    one.  The snake it returns has the length of the input; on a collision
    it is the input itself, and otherwise every segment has moved to the
    place of the segment before it, the old tail cell being given up. *)
Theorem moveSnake_shape (snake0 : list Position) (d : Direction) (m : GameMode) :
  (snake0 = [] -> moveSnake snake0 d m = TypeError) /\
  (snake0 ≠ [] ->
   exists newSnake collision,
     moveSnake snake0 d m = Returns (newSnake, collision) /\
     length newSnake = length snake0 /\
     (collision = true -> newSnake = snake0) /\
     (collision = false ->
        forall k, (S k < length snake0)%nat -> newSnake !! S k = snake0 !! k)).
Proof.
  split; [by intros -> |]. intros Hne.
  destruct snake0 as [|head rest]; [done |].
  destruct (moveSnake (head :: rest) d m) as [[newSnake [|]]| | |] eqn:Hm.
  - destruct (moveSnake_collision_inv _ _ _ _ Hm) as [-> _].
    exists (head :: rest), true. by repeat split.
  - exists newSnake, false. split; [done |].
    split; [by eapply moveSnake_ok_length |]. split; [done |]. intros _ k Hk.
    apply moveSnake_ok_inv in Hm as (h & r & nh & _ & _ & _ & ->).
    simpl. by apply js_pop_lookup.
  - unfold moveSnake in Hm. destruct (proposedHead _ _ _); [| done].
    by destruct (some_at _ _).
  - unfold moveSnake in Hm. destruct (proposedHead _ _ _); [| done].
    by destruct (some_at _ _).
  - unfold moveSnake in Hm. destruct (proposedHead _ _ _); [| done].
    by destruct (some_at _ _).
Qed.

Lemma moveSnake_shape_witness :
  exists newSnake collision,
    moveSnake [mkPos 10 10; mkPos 9 10; mkPos 8 10] UP walls
      = Returns (newSnake, collision) /\
    length newSnake = 3%nat.
Proof.
  destruct (moveSnake_shape [mkPos 10 10; mkPos 9 10; mkPos 8 10] UP walls)
    as [_ H].
  destruct H as (newSnake & collision & Hm & Hlen & _); [discriminate |].
  exists newSnake, collision. split; [exact Hm | exact Hlen].
Defined.

(** X8.  On a snake with at least one segment [growSnake] returns a snake
    one segment longer, whose segments up to the old length are those of
    the input and whose added last segment is on the cell of the old tail;
    on the empty snake the result is not a list of positions. *)
Theorem growSnake_shape (snake0 : list Position) :
  (snake0 = [] -> growSnake snake0 = IllTyped) /\
  (snake0 ≠ [] ->
   exists grown tail,
     growSnake snake0 = Returns grown /\
     last snake0 = Some tail /\ last grown = Some tail /\
     length grown = S (length snake0) /\
     js_pop grown = snake0 /\
     (forall k, (k < length snake0)%nat -> grown !! k = snake0 !! k)).
Proof.
  split; [by intros -> |]. intros Hne.
  destruct snake0 as [|head rest]; [done |].
  destruct (growSnake_cons head rest) as (tail & Hl & Hg).
  exists ((head :: rest) ++ [tail]), tail.
  split; [done |]. split; [done |]. split; [apply last_snoc |].
  split; [rewrite length_app; simpl; lia |].
  split; [apply js_pop_snoc |].
  intros k Hk. by apply lookup_app_l.
Qed.

Lemma growSnake_shape_witness :
  exists grown,
    growSnake [mkPos 10 10; mkPos 9 10; mkPos 8 10] = Returns grown /\
    last grown = Some (mkPos 8 10) /\ length grown = 4%nat.
Proof.
  destruct (growSnake_shape [mkPos 10 10; mkPos 9 10; mkPos 8 10]) as [_ H].
  destruct H as (grown & tail & Hg & Hl & Hlg & Hlen & _); [discriminate |].
  injection Hl as <-. exists grown. split; [exact Hg |].
  split; [exact Hlg | exact Hlen].
Defined.

(** X9.  The speed reaches its minimum of 50 exactly from score 1000 on;
    below that it is above 50; it is a multiple of 5, constant on each
    block of 50 points, and above the initial 150 only for a negative
    score. *)
Theorem calculateSpeed_floor (score0 : Z) :
  (calculateSpeed score0 = MIN_SPEED <-> 1000 <= score0) /\
  (score0 < 1000 -> MIN_SPEED < calculateSpeed score0) /\
  (0 <= score0 -> calculateSpeed score0 <= INITIAL_SPEED) /\
  (score0 < 0 -> INITIAL_SPEED < calculateSpeed score0) /\
  calculateSpeed score0 mod 5 = 0 /\
  calculateSpeed (50 * (score0 / 50)) = calculateSpeed score0.
Proof.
  assert (Hblock : 50 * (score0 / 50) / 50 = score0 / 50).
  { rewrite Z.mul_comm. apply Z.div_mul. lia. }
  unfold calculateSpeed, MIN_SPEED, INITIAL_SPEED, SPEED_INCREMENT.
  rewrite Hblock.
  pose proof (Z.div_mod score0 50 ltac:(lia)) as Hdm.
  pose proof (Z.mod_pos_bound score0 50 ltac:(lia)) as Hmod.
  repeat split; try lia.
  destruct (Z.max_spec 50 (150 - score0 / 50 * 5)) as [[_ ->] | [_ ->]]; [| done].
  replace (150 - score0 / 50 * 5) with ((30 - score0 / 50) * 5) by lia.
  apply Z_mod_mult.
Qed.

Lemma calculateSpeed_floor_witness :
  calculateSpeed 1000 = MIN_SPEED /\ MIN_SPEED < calculateSpeed 999.
Proof.
  split.
  - destruct (calculateSpeed_floor 1000) as [[_ Hmin] _]. apply Hmin. lia.
  - destruct (calculateSpeed_floor 999) as (_ & Habove & _). apply Habove. lia.
Defined.

(** X10.  [getOppositeDirection] is an involution without fixed point, and
    the filter of the spectator simulation keeps exactly the directions that
    are not the opposite of the current one: three of the four, the current
    direction among them. *)
Theorem opposite_and_filter_agree (d : Direction) :
  getOppositeDirection (getOppositeDirection d) = d /\
  getOppositeDirection d ≠ d /\
  (forall d', notReversal d d' = true <-> d' ≠ getOppositeDirection d) /\
  (forall d',
     d' ∈ filter (fun d' => notReversal d d' = true) directions <->
     d' ≠ getOppositeDirection d) /\
  length (filter (fun d' => notReversal d d' = true) directions) = 3%nat.
Proof.
  split; [by destruct d |]. split; [by destruct d |].
  assert (Hlen : length (filter (fun d' => notReversal d d' = true) directions) = 3%nat)
    by (by destruct d).
  assert (Hrev : forall d', notReversal d d' = true <-> d' ≠ getOppositeDirection d)
    by (intros d'; destruct d, d'; simpl; split; done).
  split; [done |]. split; [| done].
  intros d'. rewrite list_elem_of_filter, Hrev. split; [by intros [? _] |].
  intros Hne. split; [done |]. apply list_elem_of_In. destruct d'; simpl; tauto.
Qed.

Lemma opposite_and_filter_agree_witness :
  notReversal UP LEFT = true /\
  LEFT ∈ filter (fun d' => notReversal UP d' = true) directions.
Proof.
  destruct (opposite_and_filter_agree UP) as (_ & _ & Hrev & Hfilter & _).
  split; [apply Hrev | apply Hfilter]; discriminate.
Defined.

Lemma withPending_same s : withPending (nextDirection s) s = s.
Proof. by destruct s. Qed.

(** X11.  Of the direction requests that arrive between two ticks of a
    playing session, the last one that is not the opposite of the committed
    direction is the pending direction at the next tick, and nothing else of
    the state changes; if there is none, or if the session is not playing,
    the state is as before. *)
Theorem setDirection_last_request_wins (s : GameState) (ds : list Direction) :
  let after := foldl (fun st d => setDirection d st) s ds in
  (status s ≠ playing -> after = s) /\
  (status s = playing ->
   after = withPending
             (default (nextDirection s)
                (last (filter (fun d => d ≠ getOppositeDirection (direction s)) ds)))
             s).
Proof.
  simpl. split.
  - intros Hs. induction ds as [|d ds IH] using rev_ind; [done |].
    rewrite foldl_snoc, IH. unfold setDirection. by rewrite decide_True.
  - intros Hs. induction ds as [|d ds IH] using rev_ind.
    + simpl. by rewrite withPending_same.
    + rewrite foldl_snoc, IH, filter_app. unfold setDirection.
      cbn [withPending status direction].
      rewrite decide_False by (rewrite Hs; auto).
      destruct (decide (d = getOppositeDirection (direction s))) as [Hd | Hd].
      * rewrite filter_cons_False, filter_nil, app_nil_r by auto. done.
      * rewrite filter_cons_True, filter_nil, last_snoc by done. done.
Qed.

Lemma setDirection_last_request_wins_witness :
  let s := {| snake := [mkPos 10 10; mkPos 9 10; mkPos 8 10]; food := mkPos 5 5;
              direction := RIGHT; nextDirection := RIGHT;
              score := 0; highScore := 0; status := playing;
              mode := walls; speed := 150 |} in
  foldl (fun st d => setDirection d st) s [UP; LEFT; DOWN; LEFT]
    = withPending DOWN s.
Proof.
  intros s.
  destruct (setDirection_last_request_wins s [UP; LEFT; DOWN; LEFT]) as [_ H].
  apply H. reflexivity.
Defined.

(** X12.  [createInitialState] returns as soon as a drawn cell is off the
    three initial segments.  The state it returns is idle, with score 0,
    speed 150, the snake on (10,10), (9,10), (8,10) heading right, the mode
    asked for, the high score stored for that mode (0 when there is none),
    and a food cell off the snake, which is in the grid when the draws are
    within [0,1). *)
Theorem createInitialState_fresh (fuel : nat) (rnd : nat -> Q) (i : nat)
    (store : gmap string Z) (m : GameMode) :
  (forall k, (k < fuel)%nat ->
     drawAt rnd i GRID_SIZE k ∉ [mkPos 10 10; mkPos 9 10; mkPos 8 10] ->
     exists s i', createInitialState fuel rnd i store m = Returns (s, i')) /\
  (forall s i',
     createInitialState fuel rnd i store m = Returns (s, i') ->
     snake s = [mkPos 10 10; mkPos 9 10; mkPos 8 10] /\
     direction s = RIGHT /\ nextDirection s = RIGHT /\
     score s = 0 /\ speed s = 150 /\ status s = idle /\ mode s = m /\
     highScore s = default 0 (store !! highscoreKey m) /\
     (store !! highscoreKey m = None -> highScore s = 0) /\
     (food s ∉ snake s) /\
     (unit_source rnd -> inGrid (food s))).
Proof.
  unfold createInitialState. rewrite generateRandomPosition_food.
  change [mkPos (GRID_SIZE / 2) (GRID_SIZE / 2);
          mkPos (GRID_SIZE / 2 - 1) (GRID_SIZE / 2);
          mkPos (GRID_SIZE / 2 - 2) (GRID_SIZE / 2)]
    with [mkPos 10 10; mkPos 9 10; mkPos 8 10].
  split.
  - intros k Hk Hfree.
    destruct (generateRandomFood_terminates rnd GRID_SIZE _ fuel i k Hfree Hk)
      as [[f0 i0] ->]. eauto.
  - intros s i'.
    destruct (generateRandomFood _ _ _ _ _) as [[f0 i0]|] eqn:Hgen; [| done].
    intros [= <- <-]. cbn [snake direction nextDirection score speed status mode
                            highScore food].
    apply generateRandomFood_inv in Hgen as (k & _ & -> & _ & Hfree & _).
    repeat (split; [done |]). split; [by intros -> |]. split; [done |].
    intros Hu. split; by apply randInt_range.
Qed.

Lemma createInitialState_fresh_witness :
  exists s i',
    createInitialState 2 (fun i => if (i <? 2)%nat then 1 # 2 else 1 # 4) 0
                       ∅ pass_through = Returns (s, i') /\
    highScore s = 0 /\ food s ∉ snake s.
Proof.
  destruct (createInitialState_fresh 2
              (fun i => if (i <? 2)%nat then 1 # 2 else 1 # 4) 0 ∅ pass_through)
    as [Hret Hprops].
  destruct (Hret 1%nat) as (s & i' & Hs); [lia | not_in_cells |].
  exists s, i'. split; [exact Hs |].
  destruct (Hprops s i' Hs) as (_ & _ & _ & _ & _ & _ & _ & _ & Hnone & Hoff & _).
  split; [apply Hnone; reflexivity | exact Hoff].
Defined.


(** * Properties of the mock API *)

(** ** Sorting the leaderboard *)

Lemma insertByScore_perm e l : insertByScore e l ≡ₚ e :: l.
Proof.
  induction l as [|e' l IH]; simpl; [done |].
  destruct (le_score e' >? le_score e); [| done].
  by rewrite IH, Permutation_swap.
Qed.

Lemma sortByScore_perm l : sortByScore l ≡ₚ l.
Proof.
  induction l as [|e l IH]; simpl; [done |].
  by rewrite insertByScore_perm, IH.
Qed.

Lemma insertByScore_sorted e l :
  StronglySorted aboveOrEqual l -> StronglySorted aboveOrEqual (insertByScore e l).
Proof.
  induction 1 as [|e' l Hl IH Hall]; simpl; [by repeat constructor |].
  destruct (Z.gtb_spec (le_score e') (le_score e)) as [Hgt | Hle].
  - constructor; [done |]. rewrite insertByScore_perm.
    constructor; [unfold aboveOrEqual; lia | done].
  - constructor; [by constructor |].
    constructor; [done |].
    eapply Forall_impl; [exact Hall |]. unfold aboveOrEqual. intros ?; simpl; lia.
Qed.

Lemma sortByScore_sorted l : StronglySorted aboveOrEqual (sortByScore l).
Proof.
  induction l as [|e l IH]; simpl; [constructor | by apply insertByScore_sorted].
Qed.

Lemma StronglySorted_scoresDescending l :
  StronglySorted aboveOrEqual l -> scoresDescending l.
Proof.
  induction 1 as [|e l Hl IH Hall]; intros i j ei ej Hij Hi Hj; [done |].
  destruct i as [|i], j as [|j]; simpl in *; try lia.
  - injection Hi as <-. injection Hj as <-. lia.
  - injection Hi as <-. rewrite Forall_forall in Hall.
    apply (Hall ej). by eapply list_elem_of_lookup_2.
  - apply (IH i j); [lia | done | done].
Qed.

(** Sorting [l ++ [e]] puts [e] behind every entry of at least its score and
    in front of every entry of less. *)
Lemma sortByScore_snoc_split l e :
  exists before after,
    sortByScore (l ++ [e]) = before ++ e :: after /\
    Forall (fun e' => le_score e <= le_score e') before /\
    Forall (fun e' => le_score e' < le_score e) after /\
    before ++ after ≡ₚ l.
Proof.
  induction l as [|y l IH]; simpl.
  - exists [], []. by repeat split.
  - destruct IH as (before & after & -> & Hb & Ha & Hperm).
    destruct (Z.le_gt_cases (le_score e) (le_score y)) as [Hle | Hgt].
    + exists (insertByScore y before), after.
      split; [| split; [| split]].
      * clear Hperm Ha. induction before as [|z before IHb]; simpl.
        -- destruct (Z.gtb_spec (le_score e) (le_score y)); [lia | done].
        -- apply Forall_cons in Hb as [_ Hb].
           destruct (le_score z >? le_score y); [| done]. by rewrite IHb.
      * rewrite insertByScore_perm. by constructor.
      * done.
      * by rewrite insertByScore_perm, <- Hperm.
    + exists before, (insertByScore y after).
      split; [| split; [| split]].
      * clear Hperm Ha. induction before as [|z before IHb]; simpl.
        -- destruct (Z.gtb_spec (le_score e) (le_score y)); [done | lia].
        -- apply Forall_cons in Hb as [Hz Hb].
           destruct (Z.gtb_spec (le_score z) (le_score y)); [| lia]. by rewrite IHb.
      * done.
      * rewrite insertByScore_perm. by constructor.
      * by rewrite insertByScore_perm, <- Permutation_middle, Hperm.
Qed.

Lemma filter_all {A} (P : A -> Prop) `{forall x, Decision (P x)} (l : list A) :
  Forall P l -> filter P l = l.
Proof.
  induction 1 as [|x l Hx _ IH]; [done |]. by rewrite filter_cons_True, IH.
Qed.

Lemma filter_none {A} (P : A -> Prop) `{forall x, Decision (P x)} (l : list A) :
  Forall (fun x => ~ P x) l -> filter P l = [].
Proof.
  induction 1 as [|x l Hx _ IH]; [done |]. by rewrite filter_cons_False.
Qed.

(** The place the sort gives to a new entry: behind the entries of at least
    its score. *)
Lemma sortByScore_snoc_place l e :
  sortByScore (l ++ [e])
    !! length (filter (fun e' => le_score e <= le_score e') l) = Some e /\
  (e ∉ l -> forall k, sortByScore (l ++ [e]) !! k = Some e ->
     k = length (filter (fun e' => le_score e <= le_score e') l)).
Proof.
  destruct (sortByScore_snoc_split l e) as (before & after & -> & Hb & Ha & Hperm).
  assert (Hlen : length (filter (fun e' => le_score e <= le_score e') l)
                 = length before).
  { rewrite <- Hperm, filter_app, (filter_all _ before Hb), (filter_none _ after).
    - by rewrite app_nil_r.
    - eapply Forall_impl; [exact Ha |]. intros ?; simpl; lia. }
  rewrite Hlen. split; [apply list_lookup_middle; done |].
  intros Hnew k Hk.
  destruct (Nat.lt_total k (length before)) as [Hlt | [-> | Hgt]]; [| done |].
  - rewrite lookup_app_l in Hk by done.
    destruct Hnew. rewrite <- Hperm. apply elem_of_app. left.
    by eapply list_elem_of_lookup_2.
  - rewrite lookup_app_r in Hk by lia.
    destruct (k - length before)%nat as [|k'] eqn:Hk'; [lia |]. simpl in Hk.
    destruct Hnew. rewrite <- Hperm. apply elem_of_app. right.
    by eapply list_elem_of_lookup_2.
Qed.

Lemma unranked_imap_withRank l : unranked (imap withRank l) = unranked l.
Proof.
  unfold unranked. rewrite fmap_imap.
  rewrite (imap_ext _ (fun _ => withRank 0)); [apply imap_const | done].
Qed.

Lemma imap_withRank_scoresDescending l :
  scoresDescending l -> scoresDescending (imap withRank l).
Proof.
  intros Hl i j ei ej Hij (ei' & Hi & ->)%list_lookup_imap_Some
         (ej' & Hj & ->)%list_lookup_imap_Some.
  simpl. by eapply Hl.
Qed.

Lemma imap_withRank_ranksInOrder l : ranksInOrder (imap withRank l).
Proof. by intros k e (e' & _ & ->)%list_lookup_imap_Some. Qed.

(** ** Submitting a score *)

(** X13.  When a user is logged in, [submitScore] succeeds and leaves a
    leaderboard with one more entry: the old entries and the new one, in
    descending order of score, each ranked by its place counted from 1.  The
    new entry stands behind every entry of at least its score, so its rank
    is one more than the number of such entries; it is the entry returned,
    provided no old entry carries the identifier given to it.  Users and the
    login are untouched. *)
Theorem submitScore_ranks (today : string) (score0 : Z) (mode0 : GameMode)
    (st : MockState) (user : User) :
  currentUser st = Some user ->
  let board := mockLeaderboard st in
  let newEntry :=
    {| le_id := String_of_nat (length board + 1); le_rank := 0;
       le_username := u_username user; le_score := score0; le_mode := mode0;
       le_date := today; le_avatar := None |} in
  let place := length (filter (fun e => score0 <= le_score e) board) in
  exists board' r,
    leaderboardApi.submitScore today score0 mode0 st
      = ({| currentUser := currentUser st; mockUsers := mockUsers st;
            mockLeaderboard := board'; snake_user := snake_user st |}, r) /\
    success r = true /\ error r = None /\
    length board' = S (length board) /\
    unranked board' ≡ₚ unranked (board ++ [newEntry]) /\
    scoresDescending board' /\ ranksInOrder board' /\
    board' !! place = Some (withRank place newEntry) /\
    le_rank (withRank place newEntry) = Z.of_nat place + 1 /\
    (le_id newEntry ∉ le_id <$> board ->
     data r = Some (withRank place newEntry)).
Proof.
  intros Hu board newEntry place.
  unfold leaderboardApi.submitScore. rewrite Hu. fold board. fold newEntry.
  exists (imap withRank (sortByScore (board ++ [newEntry]))).
  eexists. split; [reflexivity |]. cbn [success error data].
  split; [done |]. split; [done |].
  destruct (sortByScore_snoc_place board newEntry) as [Hplace Huniq].
  pose proof (sortByScore_perm (board ++ [newEntry])) as Hperm.
  split; [by rewrite length_imap, (Permutation_length Hperm), length_app, Nat.add_comm |].
  split; [rewrite unranked_imap_withRank; by apply fmap_Permutation |].
  split; [apply imap_withRank_scoresDescending, StronglySorted_scoresDescending,
          sortByScore_sorted |].
  split; [apply imap_withRank_ranksInOrder |].
  assert (Hat : imap withRank (sortByScore (board ++ [newEntry])) !! place
                = Some (withRank place newEntry)).
  { apply list_lookup_imap_Some. by exists newEntry. }
  split; [done |]. split; [done |].
  intros Hfresh. unfold js_find.
  assert (Hnew : newEntry ∉ board).
  { intros Hin. apply Hfresh. apply list_elem_of_fmap. by exists newEntry. }
  rewrite (proj2 (list_find_Some _ _ place (withRank place newEntry))); [done |].
  split; [done |]. split; [done |].
  intros j y (e & Hj & ->)%list_lookup_imap_Some Hlt Hid.
  assert (He : e ∈ board ++ [newEntry]).
  { apply list_elem_of_In. eapply Permutation_in; [exact Hperm |].
    apply list_elem_of_In. by eapply list_elem_of_lookup_2. }
  apply elem_of_app in He as [He | ->%list_elem_of_singleton].
  - apply Hfresh. apply list_elem_of_fmap. exists e.
    split; [symmetry; exact Hid | done].
  - assert (j = place) by exact (Huniq Hnew j Hj). lia.
Qed.

Lemma submitScore_ranks_witness :
  let st := (authApi.login (mkLogin "user1@example.com" "password123")
                           (initialMock None)).1 in
  exists st' r,
    leaderboardApi.submitScore "2025-01-01" 1500 walls st = (st', r) /\
    data r = Some (mkEntry "11" 7 "PixelMaster" 1500 walls "2025-01-01" None).
Proof.
  intros st.
  destruct (submitScore_ranks "2025-01-01" 1500 walls st
              (mkUser "1" "PixelMaster" "user1@example.com" None "2024-01-15"))
    as (board' & r & Heq & _ & _ & _ & _ & _ & _ & _ & _ & Hdata);
    [reflexivity |].
  eexists _, r. split; [exact Heq |].
  apply Hdata. apply (bool_decide_unpack _). vm_compute. exact I.
Defined.

(** ** What the module keeps true under every sequence of calls *)

Lemma le_id_imap_withRank l : le_id <$> imap withRank l = le_id <$> l.
Proof.
  rewrite fmap_imap.
  rewrite (imap_ext _ (fun _ => le_id)); [apply imap_const | done].
Qed.

Lemma boardIds_submit board e :
  boardIds board -> le_id e = String_of_nat (length board + 1) ->
  boardIds (imap withRank (sortByScore (board ++ [e]))).
Proof.
  unfold boardIds. intros Hids Hid.
  pose proof (sortByScore_perm (board ++ [e])) as Hperm.
  rewrite le_id_imap_withRank, length_imap, (Permutation_length Hperm).
  rewrite (fmap_Permutation le_id _ _ Hperm).
  rewrite length_app, fmap_app, Hids. simpl.
  rewrite seq_app, fmap_app. simpl.
  by rewrite Hid, Nat.add_comm.
Qed.

Lemma boardIds_NoDup board : boardIds board -> NoDup (le_id <$> board).
Proof.
  unfold boardIds. intros ->. apply NoDup_fmap_2; [| apply NoDup_seq].
  unfold String_of_nat. apply _.
Qed.

Lemma boardIds_next_fresh board :
  boardIds board -> String_of_nat (length board + 1) ∉ le_id <$> board.
Proof.
  unfold boardIds. intros -> (k & Heq & Hk)%list_elem_of_fmap.
  apply (inj pretty) in Heq. apply elem_of_seq in Hk. lia.
Qed.

Lemma runCall_users c st e su :
  mockUsers st !! e = Some su -> mockUsers (runCall c st) !! e = Some su.
Proof.
  intros He. destruct c as [cr | today cr | | | today sc m]; simpl.
  - unfold authApi.login. destruct (mockUsers st !! lc_email cr); [| done].
    by destruct (decide _).
  - unfold authApi.signup.
    destruct (mockUsers st !! sc_email cr) eqn:Hcr; [done |]. simpl.
    rewrite lookup_insert_ne; [done | congruence].
  - done.
  - unfold authApi.getCurrentUser. by destruct (snake_user st).
  - unfold leaderboardApi.submitScore. by destruct (currentUser st).
Qed.

Lemma runCalls_users cs st e su :
  mockUsers st !! e = Some su -> mockUsers (runCalls cs st) !! e = Some su.
Proof.
  unfold runCalls. revert st. induction cs as [|c cs IH]; intros st He; [done |].
  simpl. by apply IH, runCall_users.
Qed.

Lemma runCall_inv c st : mockInv st -> mockInv (runCall c st).
Proof.
  intros (Hsorted & Hranks & Hids & Hcur & Hmail).
  assert (Hst : mockInv st) by done.
  destruct c as [cr | today cr | | | today sc m]; cbn [runCall].
  - unfold authApi.login. destruct (mockUsers st !! lc_email cr); [| done].
    destruct (decide _); [| done].
    unfold mockInv; cbn [currentUser mockUsers mockLeaderboard snake_user fst].
    split_and!; try done; try (by intros ? [= <-]).
  - unfold authApi.signup.
    destruct (mockUsers st !! sc_email cr) eqn:Hcr; [done |].
    unfold mockInv; cbn [currentUser mockUsers mockLeaderboard snake_user fst].
    split_and!; try done; try (by intros ? [= <-]).
    intros e su [[<- <-] | [_ He]]%lookup_insert_Some; [done | by apply Hmail].
  - unfold authApi.logout, mockInv;
      cbn [currentUser mockUsers mockLeaderboard snake_user fst].
    split_and!; done.
  - unfold authApi.getCurrentUser. destruct (snake_user st) eqn:Hsu; [| done].
    unfold mockInv; cbn [currentUser mockUsers mockLeaderboard snake_user fst].
    split_and!; try done; try (by intros ? [= <-]).
  - unfold leaderboardApi.submitScore. destruct (currentUser st); [| done].
    unfold mockInv; cbn [currentUser mockUsers mockLeaderboard snake_user fst].
    split_and!; try done.
    + apply imap_withRank_scoresDescending, StronglySorted_scoresDescending,
        sortByScore_sorted.
    + apply imap_withRank_ranksInOrder.
    + by apply boardIds_submit.
Qed.

Lemma initialMock_inv stored : mockInv (initialMock stored).
Proof.
  split_and!; simpl.
  - apply StronglySorted_scoresDescending. unfold initialLeaderboard.
    repeat (constructor; [| repeat (constructor; [unfold aboveOrEqual; simpl; lia |]);
                            constructor]).
    constructor.
  - intros k e Hk. unfold initialLeaderboard in Hk.
    repeat (destruct k as [|k]; [by injection Hk as <- |]). done.
  - unfold boardIds. by vm_compute.
  - done.
  - intros e su. unfold initialUsers.
    intros [[<- <-] | [_ [[<- <-] | [_ ?]]%lookup_insert_Some]]%lookup_insert_Some;
      done.
Qed.

(** X14.  Whatever calls are made on the module as loaded, the leaderboard
    stays in descending order of score with every entry ranked by its place,
    its identifiers stay pairwise distinct, the current user is the user
    kept in [localStorage], every registered user is filed under the user's
    own e-mail address, and the two users the module starts with stay
    registered. *)
Theorem mock_invariants (stored : option User) (cs : list ApiCall) :
  let st := runCalls cs (initialMock stored) in
  scoresDescending (mockLeaderboard st) /\
  ranksInOrder (mockLeaderboard st) /\
  NoDup (le_id <$> mockLeaderboard st) /\
  (10 <= length (mockLeaderboard st))%nat /\
  (forall u, currentUser st = Some u -> snake_user st = Some u) /\
  (forall e su, mockUsers st !! e = Some su -> u_email (su_user su) = e) /\
  (forall e su, initialUsers !! e = Some su -> mockUsers st !! e = Some su).
Proof.
  simpl.
  assert (Hinv : mockInv (runCalls cs (initialMock stored)) /\
                 (10 <= length (mockLeaderboard (runCalls cs (initialMock stored))))%nat).
  { unfold runCalls. induction cs as [|c cs IH] using rev_ind.
    - split; [apply initialMock_inv | simpl; lia].
    - rewrite foldl_snoc. destruct IH as [IH Hlen].
      split; [by apply runCall_inv |].
      destruct c as [cr | today cr | | | today sc m]; simpl.
      + unfold authApi.login. destruct (mockUsers _ !! lc_email cr); [| done].
        by destruct (decide _).
      + unfold authApi.signup. by destruct (mockUsers _ !! sc_email cr).
      + done.
      + unfold authApi.getCurrentUser. by destruct (snake_user _).
      + unfold leaderboardApi.submitScore. destruct (currentUser _); [| done].
        simpl. rewrite length_imap.
        rewrite (Permutation_length (sortByScore_perm _)), length_app. lia. }
  destruct Hinv as [(Hsorted & Hranks & Hids & Hcur & Hmail) Hlen].
  split_and!; try done.
  - by apply boardIds_NoDup.
  - intros e su He. by apply runCalls_users.
Qed.

Lemma mock_invariants_witness :
  let st := runCalls [Signup "2025-01-01" (mkSignup "Ana" "ana@example.com" "pw");
                      SubmitScore "2025-01-01" 3000 walls;
                      Logout]
                     (initialMock None) in
  NoDup (le_id <$> mockLeaderboard st) /\
  mockUsers st !! "user2@example.com"
    = Some (mkStoredUser
              (mkUser "2" "SnakeKing" "user2@example.com" None "2024-02-20")
              "password123").
Proof.
  intros st.
  destruct (mock_invariants None
              [Signup "2025-01-01" (mkSignup "Ana" "ana@example.com" "pw");
               SubmitScore "2025-01-01" 3000 walls;
               Logout])
    as (_ & _ & Hnd & _ & _ & _ & Hkeep).
  split; [exact Hnd |]. apply Hkeep. reflexivity.
Defined.

(** ** Accounts *)

(** X15.  A sign-up with an e-mail address that is not registered succeeds
    and returns the new user, who is from then on the current user; whatever
    calls follow, a login with the same address and password succeeds and
    returns that same user, and a login with the address and another
    password fails and changes nothing. *)
Theorem signup_then_login (today : string) (credentials : SignupCredentials)
    (st : MockState) (cs : list ApiCall) :
  mockUsers st !! sc_email credentials = None ->
  let user := {| u_id := String_of_nat (size (mockUsers st) + 1);
                 u_username := sc_username credentials;
                 u_email := sc_email credentials;
                 u_avatar := None; u_createdAt := today |} in
  let st1 := (authApi.signup today credentials st).1 in
  let st2 := runCalls cs st1 in
  (authApi.signup today credentials st).2 = mkResponse (Some user) None true /\
  currentUser st1 = Some user /\ snake_user st1 = Some user /\
  size (mockUsers st1) = S (size (mockUsers st)) /\
  authApi.login (mkLogin (sc_email credentials) (sc_password credentials)) st2
    = ({| currentUser := Some user; mockUsers := mockUsers st2;
          mockLeaderboard := mockLeaderboard st2; snake_user := Some user |},
       mkResponse (Some user) None true) /\
  (forall wrong, wrong ≠ sc_password credentials ->
     authApi.login (mkLogin (sc_email credentials) wrong) st2
       = (st2, mkResponse None (Some "Invalid email or password"%string) false)).
Proof.
  intros Hfresh user st1 st2.
  assert (Hreg : mockUsers st2 !! sc_email credentials
                 = Some (mkStoredUser user (sc_password credentials))).
  { apply runCalls_users. unfold st1, authApi.signup. rewrite Hfresh. simpl.
    apply lookup_insert_eq. }
  unfold st1, authApi.signup. rewrite Hfresh. simpl.
  split; [done |]. split; [done |]. split; [done |].
  split; [rewrite map_size_insert_None by done; done |].
  unfold authApi.login. simpl. rewrite Hreg. simpl. split.
  - by rewrite decide_True.
  - intros wrong Hwrong. by rewrite decide_False.
Qed.

Lemma signup_then_login_witness :
  let c := mkSignup "Ana" "ana@example.com" "pw" in
  let st2 := runCalls [Logout; Login (mkLogin "user1@example.com" "password123")]
                      (authApi.signup "2025-01-01" c (initialMock None)).1 in
  (authApi.login (mkLogin "ana@example.com" "pw") st2).2
    = mkResponse (Some (mkUser "3" "Ana" "ana@example.com" None "2025-01-01"))
                 None true.
Proof.
  intros c st2.
  destruct (signup_then_login "2025-01-01" c (initialMock None)
              [Logout; Login (mkLogin "user1@example.com" "password123")])
    as (_ & _ & _ & _ & Hlogin & _); [reflexivity |].
  exact (f_equal snd Hlogin).
Defined.

(** X16.  A login succeeds exactly when the e-mail address is registered
    with the password given.  It then makes the registered user the current
    user and the user kept in [localStorage]; a login that fails changes
    nothing; and no login changes the registered users or the leaderboard. *)
Theorem login_exact (credentials : LoginCredentials) (st : MockState) :
  let st' := (authApi.login credentials st).1 in
  let r := (authApi.login credentials st).2 in
  (success r = true <->
   exists su, mockUsers st !! lc_email credentials = Some su /\
              su_password su = lc_password credentials) /\
  (forall su,
     mockUsers st !! lc_email credentials = Some su ->
     su_password su = lc_password credentials ->
     data r = Some (su_user su) /\ error r = None /\
     currentUser st' = Some (su_user su) /\ snake_user st' = Some (su_user su)) /\
  (success r = false ->
     st' = st /\ data r = None /\
     error r = Some "Invalid email or password"%string) /\
  mockUsers st' = mockUsers st /\ mockLeaderboard st' = mockLeaderboard st.
Proof.
  unfold authApi.login.
  destruct (mockUsers st !! lc_email credentials) as [su|] eqn:Hsu.
  - destruct (decide (su_password su = lc_password credentials)) as [Hpw | Hpw];
      simpl.
    + split_and!; try done; [split; eauto | by intros ? [= <-] _].
    + split_and!; try done.
      * split; [done |]. by intros (su' & [= <-] & ?).
      * by intros ? [= <-] ?.
  - simpl. split_and!; try done. split; [done |]. by intros (su' & ? & ?).
Qed.

Lemma login_exact_witness :
  data (authApi.login (mkLogin "user1@example.com" "password123")
                      (initialMock None)).2
    = Some (mkUser "1" "PixelMaster" "user1@example.com" None "2024-01-15").
Proof.
  destruct (login_exact (mkLogin "user1@example.com" "password123")
                        (initialMock None)) as (_ & Hok & _).
  apply (Hok (mkStoredUser
                (mkUser "1" "PixelMaster" "user1@example.com" None "2024-01-15")
                "password123")); reflexivity.
Defined.

(** X17.  After a logout nobody is logged in: [getCurrentUser] returns no
    user and [submitScore] is refused, both leaving the state as it is.
    [submitScore] is accepted exactly when there is a current user.  On a
    freshly loaded module whose [localStorage] still holds a user,
    [submitScore] is refused until [getCurrentUser] has been called, which
    returns the stored user and makes it the current one. *)
Theorem session_gates_submission (st : MockState) (today : string) (score0 : Z)
    (mode0 : GameMode) :
  let out := (authApi.logout st).1 in
  (currentUser out = None /\ snake_user out = None /\
   mockUsers out = mockUsers st /\ mockLeaderboard out = mockLeaderboard st /\
   authApi.getCurrentUser out = (out, mkResponse None None true) /\
   leaderboardApi.submitScore today score0 mode0 out
     = (out, mkResponse None (Some "Must be logged in to submit score"%string) false)) /\
  (success (leaderboardApi.submitScore today score0 mode0 st).2 = true <->
   is_Some (currentUser st)) /\
  (currentUser st = None ->
   leaderboardApi.submitScore today score0 mode0 st
     = (st, mkResponse None (Some "Must be logged in to submit score"%string) false)) /\
  (forall user,
     let loaded := initialMock (Some user) in
     success (leaderboardApi.submitScore today score0 mode0 loaded).2 = false /\
     (authApi.getCurrentUser loaded).2 = mkResponse (Some user) None true /\
     success (leaderboardApi.submitScore today score0 mode0
                (authApi.getCurrentUser loaded).1).2 = true).
Proof.
  split_and!; try done.
  - unfold leaderboardApi.submitScore. destruct (currentUser st); simpl.
    + split; [by eexists | done].
    + split; [done | by intros [? ?]].
  - unfold leaderboardApi.submitScore. by intros ->.
Qed.

Lemma session_gates_submission_witness :
  leaderboardApi.submitScore "2025-01-01" 500 walls (initialMock None)
    = (initialMock None,
       mkResponse None (Some "Must be logged in to submit score"%string) false).
Proof.
  destruct (session_gates_submission (initialMock None) "2025-01-01" 500 walls)
    as (_ & _ & Hnone & _).
  apply Hnone. reflexivity.
Defined.

Ltac response_facts :=
  solve [ done
        | by eexists
        | split; [done | by intros [? ?]]
        | split; [by eexists | done]
        | split; done ].

(** X18.  In every response of the mock API [success] is true exactly when
    [error] is null, and a response that reports a failure carries no data
    and comes with an unchanged state.  [logout], [getCurrentUser],
    [getLeaderboard] and [getLivePlayers] never fail. *)
Theorem responses_well_formed (st : MockState) :
  (forall c,
     let (st', r) := authApi.login c st in
     (success r = true <-> error r = None) /\
     (success r = true <-> is_Some (data r)) /\
     (success r = false -> st' = st)) /\
  (forall today c,
     let (st', r) := authApi.signup today c st in
     (success r = true <-> error r = None) /\
     (success r = true <-> is_Some (data r)) /\
     (success r = false ->
        st' = st /\ error r = Some "Email already registered"%string)) /\
  (let (st', r) := authApi.logout st in
   success r = true /\ error r = None /\ data r = None) /\
  (let (st', r) := authApi.getCurrentUser st in
   success r = true /\ error r = None /\ data r = snake_user st) /\
  (forall mode,
     let r := leaderboardApi.getLeaderboard mode st in
     success r = true /\ error r = None /\ is_Some (data r)) /\
  (forall today score0 mode0,
     let (st', r) := leaderboardApi.submitScore today score0 mode0 st in
     (success r = true <-> error r = None) /\
     (success r = false -> st' = st /\ data r = None)) /\
  (forall players,
     let r := livePlayersApi.getLivePlayers players in
     success r = true /\ error r = None /\ data r = Some players) /\
  (forall players playerId,
     let r := livePlayersApi.getPlayerStream players playerId in
     (success r = true <-> error r = None) /\
     (success r = true <-> is_Some (data r)) /\
     (success r = false -> error r = Some "Player not found"%string)).
Proof.
  split_and!.
  - intros c. unfold authApi.login.
    destruct (mockUsers st !! lc_email c) as [su|]; [destruct (decide _) |];
      simpl; split_and!; response_facts.
  - intros today c. unfold authApi.signup.
    destruct (mockUsers st !! sc_email c); simpl; split_and!; response_facts.
  - done.
  - unfold authApi.getCurrentUser. by destruct (snake_user st).
  - intros mode. simpl. split_and!; [done | done | by eexists].
  - intros today score0 mode0. unfold leaderboardApi.submitScore.
    by destruct (currentUser st).
  - done.
  - intros players playerId. unfold livePlayersApi.getPlayerStream.
    destruct (js_find _ players) as [p|]; simpl; split_and!; response_facts.
Qed.

Lemma responses_well_formed_witness :
  (authApi.login (mkLogin "nobody@example.com" "x") (initialMock None)).1
    = initialMock None.
Proof.
  pose proof (proj1 (responses_well_formed (initialMock None))
                (mkLogin "nobody@example.com" "x")) as H.
  destruct (authApi.login (mkLogin "nobody@example.com" "x") (initialMock None))
    as [st' r] eqn:E.
  destruct H as (_ & _ & H). simpl. apply H.
  apply (f_equal (fun p => success p.2)) in E. simpl in E.
  rewrite <- E. reflexivity.
Defined.

(** ** Reading the leaderboard and the live players *)

Lemma scoresDescending_cons e l :
  scoresDescending (e :: l) <->
  Forall (fun e' => le_score e' <= le_score e) l /\ scoresDescending l.
Proof.
  split.
  - intros Hd. split.
    + apply Forall_forall. intros e' (k & Hk)%list_elem_of_lookup_1.
      apply (Hd 0%nat (S k)); [lia | done | done].
    + intros i j ei ej Hij Hi Hj. apply (Hd (S i) (S j)); [lia | done | done].
  - intros [Hall Hd] [|i] [|j] ei ej Hij Hi Hj; simpl in *; try lia.
    + injection Hi as <-. injection Hj as <-. lia.
    + injection Hi as <-. rewrite Forall_forall in Hall.
      apply Hall. by eapply list_elem_of_lookup_2.
    + apply (Hd i j); [lia | done | done].
Qed.

Lemma scoresDescending_filter (P : LeaderboardEntry -> Prop)
    `{forall e, Decision (P e)} l :
  scoresDescending l -> scoresDescending (filter P l).
Proof.
  induction l as [|e l IH]; [done |].
  intros [Hall Hd]%scoresDescending_cons.
  destruct (decide (P e)).
  - rewrite filter_cons_True by done. apply scoresDescending_cons.
    split; [| by apply IH].
    apply Forall_forall. intros e' [_ He']%list_elem_of_filter.
    rewrite Forall_forall in Hall. by apply Hall.
  - rewrite filter_cons_False by done. by apply IH.
Qed.

(** X19.  [getLeaderboard] without a mode returns the whole board.  With a
    mode it returns exactly the entries of that mode, in the order of the
    board, hence in descending order of score when the board is.  After an
    accepted [submitScore] the board of the submitted mode holds an entry
    with the submitted score, the date and the name of the current user. *)
Theorem getLeaderboard_by_mode (st : MockState) (m : GameMode) :
  data (leaderboardApi.getLeaderboard None st) = Some (mockLeaderboard st) /\
  (exists entries,
     data (leaderboardApi.getLeaderboard (Some m) st) = Some entries /\
     entries `sublist_of` mockLeaderboard st /\
     (forall e, e ∈ entries <-> e ∈ mockLeaderboard st /\ le_mode e = m) /\
     (scoresDescending (mockLeaderboard st) -> scoresDescending entries)) /\
  (forall today score0 user,
     currentUser st = Some user ->
     let st' := (leaderboardApi.submitScore today score0 m st).1 in
     exists entries e,
       data (leaderboardApi.getLeaderboard (Some m) st') = Some entries /\
       e ∈ entries /\ le_score e = score0 /\ le_username e = u_username user /\
       le_date e = today).
Proof.
  split; [done |]. split.
  - eexists. split; [done |]. split; [apply sublist_filter |].
    split; [intros e; rewrite list_elem_of_filter; tauto |].
    apply scoresDescending_filter.
  - intros today score0 user Hu st'.
    unfold st', leaderboardApi.submitScore. rewrite Hu. simpl.
    set (newEntry := mkEntry _ 0 (u_username user) score0 m today None).
    destruct (sortByScore_snoc_place (mockLeaderboard st) newEntry) as [Hplace _].
    eexists _, (withRank _ newEntry). split; [done |].
    split; [| done]. apply list_elem_of_filter. split; [done |].
    eapply list_elem_of_lookup_2. apply list_lookup_imap_Some.
    eexists. split; [exact Hplace | done].
Qed.

Lemma getLeaderboard_by_mode_witness :
  exists entries e,
    data (leaderboardApi.getLeaderboard (Some pass_through)
            (leaderboardApi.submitScore "2025-01-01" 1700 pass_through
               (authApi.login (mkLogin "user2@example.com" "password123")
                              (initialMock None)).1).1)
      = Some entries /\
    e ∈ entries /\ le_score e = 1700 /\ le_username e = "SnakeKing"%string.
Proof.
  destruct (getLeaderboard_by_mode
              (authApi.login (mkLogin "user2@example.com" "password123")
                             (initialMock None)).1 pass_through)
    as (_ & _ & Hsub).
  destruct (Hsub "2025-01-01"%string 1700
              (mkUser "2" "SnakeKing" "user2@example.com" None "2024-02-20"))
    as (entries & e & Hdata & Hin & Hscore & Hname & _); [reflexivity |].
  exists entries, e. split; [exact Hdata |]. split; [exact Hin |].
  split; [exact Hscore | exact Hname].
Defined.

(** X20.  [getPlayerStream] succeeds exactly when a live player carries the
    identifier asked for; the player returned is the first such player of
    the list, and it carries that identifier. *)
Theorem getPlayerStream_finds (players : list LivePlayer) (playerId : string) :
  let r := livePlayersApi.getPlayerStream players playerId in
  (success r = true <-> exists p, p ∈ players /\ lp_id p = playerId) /\
  (forall p, data r = Some p ->
     lp_id p = playerId /\
     exists k, players !! k = Some p /\
               forall j q, (j < k)%nat -> players !! j = Some q ->
                           lp_id q ≠ playerId) /\
  (data r = None <-> forall p, p ∈ players -> lp_id p ≠ playerId).
Proof.
  unfold livePlayersApi.getPlayerStream, js_find. simpl.
  destruct (list_find (fun p => lp_id p = playerId) players) as [[k p]|] eqn:Hf;
    simpl.
  - apply list_find_Some in Hf as (Hk & Hp & Hfirst).
    split_and!.
    + split; [| done]. intros _. exists p.
      split; [by eapply list_elem_of_lookup_2 | done].
    + intros p' [= <-]. split; [done |]. exists k. split; [done |].
      intros j q Hj Hq. by apply (Hfirst j q).
    + split; [done |]. intros Hnone. destruct (Hnone p); [| done].
      by eapply list_elem_of_lookup_2.
  - apply list_find_None in Hf. rewrite Forall_forall in Hf.
    split_and!; [| done |].
    + split; [done |]. intros (p & Hin & Hid). by destruct (Hf p Hin).
    + split; [| done]. intros _ p Hin. by apply Hf.
Qed.


Lemma getPlayerStream_finds_witness :
  let p1 := mkLivePlayer "live1" "StreamerPro" None 340 walls 0%nat
                         (mkPos 10 10) RIGHT playing 42 in
  let p2 := mkLivePlayer "live2" "NightOwl" None 180 pass_through 1%nat
                         (mkPos 15 5) UP playing 28 in
  success (livePlayersApi.getPlayerStream [p1; p2] "live2") = true.
Proof.
  intros p1 p2.
  apply (getPlayerStream_finds [p1; p2] "live2").
  exists p2. split; [| reflexivity].
  apply list_elem_of_further, list_elem_of_here.
Defined.

(** * Further properties of the spectator simulation *)

Lemma simHead_in_grid head d n :
  0 < n -> 0 <= px head < n -> 0 <= py head < n ->
  0 <= px (simHead head d n) < n /\ 0 <= py (simHead head d n) < n.
Proof.
  intros Hn Hx Hy. rewrite simHead_torus by done. unfold torusStep. simpl.
  split; apply Z.mod_pos_bound; lia.
Qed.

(** One simulated tick on a snapshot whose snake has a head in the grid:
    it returns or is still drawing a food cell, and what it returns is again
    such a snapshot. *)
Lemma simulatePlayerTick_step fuel rnd i σ player gridSize head tl :
  unit_source rnd -> 0 < gridSize ->
  σ !! lp_snake player = Some (head :: tl) ->
  0 <= px head < gridSize -> 0 <= py head < gridSize ->
  simulatePlayerTick fuel rnd i σ player gridSize = OutOfFuel \/
  exists player' σ' i' head' tl',
    simulatePlayerTick fuel rnd i σ player gridSize = Returns (player', σ', i') /\
    σ' !! lp_snake player' = Some (head' :: tl') /\
    (0 <= px head' < gridSize /\ 0 <= py head' < gridSize) /\
    lp_score player' - lp_score player
      = 10 * (Z.of_nat (length (head' :: tl')) - Z.of_nat (length (head :: tl))) /\
    (length (head :: tl) <= length (head' :: tl'))%nat /\
    (i <= i')%nat /\
    (forall l, is_Some (σ !! l) -> σ' !! l = σ !! l) /\
    lp_status player' = lp_status player /\ lp_mode player' = lp_mode player /\
    lp_id player' = lp_id player /\ lp_username player' = lp_username player /\
    lp_viewers player' = lp_viewers player.
Proof.
  intros Hu Hn Hσ Hx Hy.
  pose proof (fresh_array_unused σ) as Hfresh.
  pose proof (simHead_in_grid head (lp_direction player) gridSize Hn Hx Hy) as Hin.
  assert (Hold : forall l, is_Some (σ !! l) -> l ≠ fresh (dom σ)).
  { intros l [x Hl] ->. congruence. }
  unfold simulatePlayerTick. rewrite Hσ.
  destruct (samePos _ (lp_food player)).
  - destruct (generateRandomFood _ _ _ _ _) as [[f i1]|] eqn:Hgen; [| by left].
    right. apply generateRandomFood_inv in Hgen as (k & _ & _ & Hi1 & _).
    destruct (randomTurn_legal rnd i1 (lp_direction player) Hu)
      as (d' & i2 & Hturn & _ & Hi2).
    cbn [mbind outcome_bind]. rewrite Hturn. cbn [mbind outcome_bind].
    eexists _, _, _, _, _. split; [done |].
    cbn [lp_snake lp_score lp_status lp_mode lp_id lp_username lp_viewers].
    rewrite lookup_insert_eq. split; [done |]. split; [done |].
    cbn [length].
    split; [lia |]. split; [lia |]. split; [lia |].
    split; [| done]. intros l Hl. apply lookup_insert_ne. by apply not_eq_sym, Hold.
  - right.
    destruct (randomTurn_legal rnd i (lp_direction player) Hu)
      as (d' & i2 & Hturn & _ & Hi2).
    cbn [mbind outcome_bind]. rewrite Hturn. cbn [mbind outcome_bind].
    eexists _, _, _, _, _. split; [done |].
    cbn [lp_snake lp_score lp_status lp_mode lp_id lp_username lp_viewers].
    rewrite lookup_alter_eq, lookup_insert_eq. cbn [fmap option_fmap option_map].
    rewrite js_pop_cons. split; [done |]. split; [done |].
    assert (Hlen : length (js_pop (head :: tl)) = length tl)
      by (rewrite length_js_pop; cbn [length]; lia).
    cbn [length]. rewrite Hlen.
    split; [lia |]. split; [lia |]. split; [lia |].
    split; [| done]. intros l Hl.
    rewrite lookup_alter_ne, lookup_insert_ne; [done | |];
      by apply not_eq_sym, Hold.
Qed.

(** X21.  A spectated stream never throws.  From a snapshot whose snake has
    a head in the 20 by 20 grid, for draws within [0,1), any number of
    simulated ticks either is still drawing a food cell or returns a
    snapshot whose snake again has a head in the grid.  Over the run the
    snake never gets shorter, the score grows by exactly 10 for each segment
    gained, the identity, mode and status of the player are kept, and every
    array that existed at the start, the first snake among them, is as it
    was. *)
Theorem spectate_runs (n fuel : nat) (rnd : nat -> Q) (i : nat)
    (σ : gmap nat (list Position)) (player : LivePlayer)
    (head : Position) (tl : list Position) :
  unit_source rnd ->
  σ !! lp_snake player = Some (head :: tl) ->
  0 <= px head < 20 -> 0 <= py head < 20 ->
  spectate n fuel rnd i σ player = OutOfFuel \/
  exists player' σ' i' head' tl',
    spectate n fuel rnd i σ player = Returns (player', σ', i') /\
    σ' !! lp_snake player' = Some (head' :: tl') /\
    (0 <= px head' < 20 /\ 0 <= py head' < 20) /\
    lp_score player' - lp_score player
      = 10 * (Z.of_nat (length (head' :: tl')) - Z.of_nat (length (head :: tl))) /\
    (length (head :: tl) <= length (head' :: tl'))%nat /\
    (i <= i')%nat /\
    (forall l, is_Some (σ !! l) -> σ' !! l = σ !! l) /\
    lp_status player' = lp_status player /\ lp_mode player' = lp_mode player /\
    lp_id player' = lp_id player /\ lp_username player' = lp_username player /\
    lp_viewers player' = lp_viewers player.
Proof.
  intros Hu. revert i σ player head tl.
  induction n as [|n IH]; intros i σ player head tl Hσ Hx Hy.
  - right. exists player, σ, i, head, tl. simpl. split_and!; try done; lia.
  - cbn [spectate].
    destruct (simulatePlayerTick_step fuel rnd i σ player 20 head tl
                Hu ltac:(lia) Hσ Hx Hy)
      as [-> | (p1 & σ1 & i1 & h1 & t1 & -> & Hσ1 & [Hx1 Hy1] & Hsc1 & Hlen1 & Hi1
                & Hold1 & Hst1 & Hmo1 & Hid1 & Hun1 & Hvi1)]; [by left |].
    cbn [mbind outcome_bind].
    destruct (IH i1 σ1 p1 h1 t1 Hσ1 Hx1 Hy1)
      as [-> | (p2 & σ2 & i2 & h2 & t2 & -> & Hσ2 & Hin2 & Hsc2 & Hlen2 & Hi2
                & Hold2 & Hst2 & Hmo2 & Hid2 & Hun2 & Hvi2)]; [by left |].
    right. exists p2, σ2, i2, h2, t2. split_and!; try done; try lia; try congruence.
    intros l Hl. rewrite Hold2; [by apply Hold1 |]. by rewrite Hold1.
Qed.

Lemma spectate_runs_witness :
  let σ : gmap nat (list Position) :=
    {[ 0%nat := [mkPos 19 10; mkPos 18 10; mkPos 17 10] ]} in
  let player := {| lp_id := "live1"; lp_username := "StreamerPro";
                   lp_avatar := None; lp_score := 340; lp_mode := walls;
                   lp_snake := 0%nat; lp_food := mkPos 0 10;
                   lp_direction := RIGHT; lp_status := playing;
                   lp_viewers := 42 |} in
  spectate 3 1 (fun _ => 1 # 4) 0 σ player ≠ TypeError /\
  spectate 3 1 (fun _ => 1 # 4) 0 σ player ≠ IllTyped.
Proof.
  intros σ player.
  destruct (spectate_runs 3 1 (fun _ => 1 # 4) 0 σ player
              (mkPos 19 10) [mkPos 18 10; mkPos 17 10])
    as [-> | (p' & σ' & i' & h' & t' & -> & _)].
  - intros j. unfold Qle, Qlt. simpl. lia.
  - reflexivity.
  - simpl. lia.
  - simpl. lia.
  - split; discriminate.
  - split; discriminate.
Defined.

(** X22.  The random turn of the spectator simulation reads one number and
    keeps the direction when that number is not below the double 0.3.
    Otherwise it reads a second number and returns a direction that is not
    the reversal, whatever the first number was; and each of the three
    directions other than the reversal, the current one among them, is
    returned for some value of the second number. *)
Theorem randomTurn_choice (rnd : nat -> Q) (i : nat) (d : Direction) :
  unit_source rnd ->
  ((double_0_3 <= rnd i)%Q -> randomTurn rnd i d = Returns (d, S i)) /\
  ((rnd i < double_0_3)%Q ->
     exists d',
       randomTurn rnd i d = Returns (d', S (S i)) /\
       d' ≠ getOppositeDirection d /\
       forall rnd' : nat -> Q,
         (rnd' i < double_0_3)%Q -> rnd' (S i) = rnd (S i) ->
         randomTurn rnd' i d = Returns (d', S (S i))) /\
  (forall d', d' ≠ getOppositeDirection d ->
     exists r : Q,
       (0 <= r)%Q /\ (r < 1)%Q /\
       forall rnd' : nat -> Q,
         (rnd' i < double_0_3)%Q -> rnd' (S i) = r ->
         randomTurn rnd' i d = Returns (d', S (S i))).
Proof.
  intros Hu. split; [| split].
  - intros Hge. unfold randomTurn.
    destruct (Qlt_le_dec (rnd i) double_0_3) as [Hlt | _]; [| done].
    by destruct (Qlt_not_le _ _ Hlt).
  - intros Hlt.
    destruct (randomTurn_legal rnd i d Hu) as (d' & i' & Hr & Hd' & _).
    unfold randomTurn in Hr.
    destruct (Qlt_le_dec (rnd i) double_0_3) as [_ | Hge];
      [| by destruct (Qlt_not_le _ _ Hlt)].
    exists d'.
    assert (Hturn : forall rnd' : nat -> Q,
              (rnd' i < double_0_3)%Q -> rnd' (S i) = rnd (S i) ->
              randomTurn rnd' i d = Returns (d', S (S i))).
    { intros rnd' Hlt' Heq. unfold randomTurn.
      destruct (Qlt_le_dec (rnd' i) double_0_3) as [_ | Hge];
        [| by destruct (Qlt_not_le _ _ Hlt')].
      unfold randInt in *. rewrite Heq.
      destruct (js_nth _ _); [| done]. by injection Hr as -> _. }
    split; [| split; [done | exact Hturn]].
    apply Hturn; [done | reflexivity].
  - intros d' Hd'.
    assert (Hpick : exists r : Q,
              (0 <= r)%Q /\ (r < 1)%Q /\
              js_nth (filter (fun d0 => notReversal d d0 = true) directions)
                     (Qfloor (r * inject_Z 3)) = Some d').
    { destruct d, d'; simpl in Hd'; try done;
        first [ by exists 0%Q | by exists (1 # 2)%Q | by exists (3 # 4)%Q ]. }
    destruct Hpick as (r & H0 & H1 & Hnth).
    exists r. split; [done |]. split; [done |].
    intros rnd' Hlt' Heq. unfold randomTurn.
    destruct (Qlt_le_dec (rnd' i) double_0_3) as [_ | Hge];
      [| by destruct (Qlt_not_le _ _ Hlt')].
    assert (Hlen : length (filter (fun d0 => notReversal d d0 = true) directions)
                   = 3%nat) by (by destruct d).
    rewrite Hlen. unfold randInt. rewrite Heq.
    change (inject_Z (Z.of_nat 3)) with (inject_Z 3). by rewrite Hnth.
Qed.

Lemma randomTurn_choice_witness :
  randomTurn (fun i => match i with O => 1 # 10 | _ => 1 # 2 end) 0 RIGHT
    = Returns (DOWN, 2%nat) /\
  randomTurn (fun _ => 1 # 2) 0 RIGHT = Returns (RIGHT, 1%nat).
Proof.
  split.
  - destruct (randomTurn_choice
                (fun i => match i with O => 1 # 10 | _ => 1 # 2 end) 0 RIGHT)
      as (_ & Hturn & _).
    + intros [|j]; unfold Qle, Qlt; simpl; lia.
    + destruct Hturn as (d' & Hr & _); [reflexivity |].
      rewrite Hr. vm_compute in Hr. injection Hr as <-. reflexivity.
  - apply (randomTurn_choice (fun _ => 1 # 2) 0 RIGHT).
    + intros j. unfold Qle, Qlt. simpl. lia.
    + unfold Qle. simpl. lia.
Defined.

(** X23.  [generateRandomSnake] reads two random numbers and returns three
    segments in a row, the head rightmost.  For a grid of side above 10 and
    draws within [0,1), the head is at least 5 cells from every edge, so the
    three segments are distinct cells of the grid; on a grid of side 10 the
    snake is always (5,5), (4,5), (3,5). *)
Theorem generateRandomSnake_in_grid (rnd : nat -> Q) (i : nat) (gridSize : Z) :
  unit_source rnd ->
  exists x y,
    generateRandomSnake rnd i gridSize
      = ([mkPos x y; mkPos (x - 1) y; mkPos (x - 2) y], S (S i)) /\
    (10 < gridSize ->
       5 <= x < gridSize - 5 /\ 5 <= y < gridSize - 5 /\
       Forall (fun p => 0 <= px p < gridSize /\ 0 <= py p < gridSize)
              (generateRandomSnake rnd i gridSize).1 /\
       NoDup (generateRandomSnake rnd i gridSize).1) /\
    (gridSize = 10 -> x = 5 /\ y = 5).
Proof.
  intros Hu. eexists _, _. split; [reflexivity |]. split.
  - intros Hg.
    pose proof (randInt_range rnd i (gridSize - 10) Hu ltac:(lia)) as Hx.
    pose proof (randInt_range rnd (S i) (gridSize - 10) Hu ltac:(lia)) as Hy.
    split; [lia |]. split; [lia |]. cbn [generateRandomSnake fst]. split.
    + repeat (apply Forall_cons; split; [cbn [px py]; lia |]). apply Forall_nil_2.
    + repeat (apply NoDup_cons; split;
              [rewrite ?elem_of_cons, elem_of_nil;
               intros H; repeat destruct H as [H | H]; try done;
               injection H; lia |]).
      apply NoDup_nil_2.
  - intros ->. unfold randInt. change (inject_Z (10 - 10)) with (0 : Q).
    rewrite !Qmult_0_r. done.
Qed.

Lemma generateRandomSnake_in_grid_witness :
  exists x y,
    generateRandomSnake (fun _ => 1 # 2) 0 20
      = ([mkPos x y; mkPos (x - 1) y; mkPos (x - 2) y], 2%nat) /\
    5 <= x < 15 /\ 5 <= y < 15.
Proof.
  destruct (generateRandomSnake_in_grid (fun _ => 1 # 2) 0 20)
    as (x & y & Heq & Hin & _).
  - intros j. unfold Qle, Qlt. simpl. lia.
  - exists x, y. split; [exact Heq |].
    destruct Hin as (Hx & Hy & _); [lia |]. split; [exact Hx | exact Hy].
Defined.

(** * The keyboard and the shape of the snake *)






Lemma moved_snake_chain (m : GameMode) (d : Direction) (old : list Position)
    (head newHead : Position) (rest : list Position) :
  old = head :: rest ->
  proposedHead head d m = Some newHead ->
  (forall k a b,
     old !! k = Some a -> old !! S k = Some b ->
     (exists d', proposedHead b d' m = Some a) \/
     (a = b /\ S (S k) = length old)) ->
  forall k a b,
    (newHead :: js_pop old) !! k = Some a ->
    (newHead :: js_pop old) !! S k = Some b ->
    exists d', proposedHead b d' m = Some a.
Proof.
  intros Hold Hp Hchain k a b Ha Hb. destruct k as [|k]; simpl in *.
  - injection Ha as <-. rewrite Hold, js_pop_lookup in Hb.
    + injection Hb as <-. by exists d.
    + apply lookup_lt_Some in Hb. rewrite length_js_pop in Hb. simpl in *. lia.
  - assert (Hlen : (S (S k) < length old)%nat).
    { apply lookup_lt_Some in Hb. rewrite length_js_pop in Hb. lia. }
    rewrite js_pop_lookup in Ha, Hb by lia.
    destruct (Hchain k a b Ha Hb) as [Hstep | [_ Hlast]]; [done | lia].
Qed.

(** X25.  In every state of a session the snake is a chain: each segment
    is the cell its successor would move to in one step of the session's
    mode (the neighbouring cell, across the edge in pass-through mode), the
    one exception being the last two segments, which lie on the same cell
    after a tick that has eaten. *)
Theorem session_snake_chain (s : GameState) :
  reachable s ->
  forall k a b,
    snake s !! k = Some a -> snake s !! S k = Some b ->
    (exists d, proposedHead b d (mode s) = Some a) \/
    (a = b /\ S (S k) = length (snake s)).
Proof.
  revert s.
  apply (reachable_invariant
           (fun s => forall k a b,
              snake s !! k = Some a -> snake s !! S k = Some b ->
              (exists d, proposedHead b d (mode s) = Some a) \/
              (a = b /\ S (S k) = length (snake s)))).
  - intros fuel rnd i store m s i'. unfold createInitialState.
    destruct (generateRandomPosition _ _ _ _) as [[f0 i0]|]; [| done].
    intros [= <- <-] k a b Ha Hb. cbn [snake mode] in *. left. exists RIGHT.
    destruct k as [|[|k]]; simpl in *; [| | done];
      injection Ha as <-; injection Hb as <-; by destruct m.
  - intros s s' Hsn _ _ _ _ Hmo. by rewrite Hsn, Hmo.
  - intros s nh body _ Hchain _ Hm _ k a b Ha Hb. cbn [advancedState snake mode] in *.
    apply moveSnake_ok_inv in Hm as (head & rest & newHead & Hsn & Hp & _ & [= <- ->]).
    left. by eapply moved_snake_chain.
  - intros s body tail newFood fuel rnd i i' _ Hchain _ Hm Hl _ k a b Ha Hb.
    cbn [grownState snake mode] in *.
    apply moveSnake_ok_inv in Hm as (head & rest & newHead & Hsn & Hp & _ & [= <- ->]).
    set (new := food s :: js_pop (snake s)) in *.
    destruct (decide (S k < length new)%nat) as [Hin | Hout].
    + rewrite lookup_app_l in Ha, Hb by lia.
      left. by eapply (moved_snake_chain _ _ (snake s)).
    + pose proof (lookup_lt_Some _ _ _ Hb) as Hlt.
      rewrite length_app in Hlt. change (length [tail]) with 1%nat in Hlt.
      assert (Hk : S k = length new) by lia.
      rewrite lookup_app_l in Ha by lia.
      rewrite lookup_app_r, Hk, Nat.sub_diag in Hb by lia. injection Hb as <-.
      rewrite last_lookup in Hl. replace (pred (length new)) with k in Hl by lia.
      right. split; [congruence |].
      rewrite length_app. change (length [tail]) with 1%nat. lia.
Qed.

Lemma session_snake_chain_witness :
  exists d, proposedHead (mkPos 10 10) d walls = Some (mkPos 11 10).
Proof.
  destruct (session_snake_chain
              {| snake := [mkPos 11 10; mkPos 10 10; mkPos 9 10; mkPos 9 10];
                 food := mkPos 5 5;
                 direction := RIGHT; nextDirection := RIGHT;
                 score := 10; highScore := 10; status := playing;
                 mode := walls; speed := 150 |}
              fed_session_reachable 0%nat (mkPos 11 10) (mkPos 10 10))
    as [Hstep | [Heq _]]; [reflexivity | reflexivity | exact Hstep |].
  discriminate Heq.
Defined.
